(** * Organization accounts: credential-scoped fan-out (c7n/resources/org.py)

    A shallow embedding of the parts of [c7n/resources/org.py] that resolve
    credentials, walk the organizational-unit tree and run a per-account,
    per-region operation over a set of accounts, and the properties the
    specification states about them. *)

From Stdlib Require Import String Ascii List Arith Lia Permutation.
From stdpp Require Import base option list relations gmap strings sets fin_maps.

Local Open Scope string_scope.
Local Open Scope list_scope.

(** The account records the filters receive, read through [r["Id"]] and
    [r["Name"]]. *)
Record account := Account { Id : string; Name : string }.

(** [ORG_ACCOUNT_SESSION_NAME] *)
Definition ORG_ACCOUNT_SESSION_NAME : string := "CustodianOrgAccount".

(** * The organizational-unit tree: [AccountHierarchy] and the [ou] filter *)

Module Hierarchy.

(** The [ChildType] argument of the [list_children] API. *)
Inductive child_type := ACCOUNT | ORGANIZATIONAL_UNIT.

(** One page of a paginated [list_children] response.  A page is a dict;
    its ["Children"] key may be missing, and each child is read through
    [f["Id"]] only, so a page is the optional list of these ids. *)
Record page := Page { Children : option (list string) }.

(** [[f["Id"] for f in page.get("Children", [])]] *)
Definition page_ids (p : page) : list string := default [] (Children p).

(** [client.get_paginator("list_children").paginate(ParentId=p, ChildType=t)]:
    the pages the listing collaborator yields for a parent and a child type. *)
Definition client := string -> child_type -> list page.

(** Python lists are mutable objects handed around by reference.  The store
    maps a reference to the current contents of the list it denotes; every
    reference the code receives denotes a list, read with the total lookup. *)
Definition loc := nat.
Abbreviation store := (gmap loc (list string)).

(** Body of [for page in pager.paginate(...)] in [get_ous_for_roots]:
    [roots.extend(ids); folders.update(ids)] on the list object [roots]. *)
Definition visit_page (roots : loc) (st : store * gset string) (p : page)
  : store * gset string :=
  let ids := page_ids p in
  (<[roots := (st.1 !!! roots) ++ ids]> st.1, st.2 ∪ list_to_set ids).

(** The [while roots:] loop of [get_ous_for_roots].  The loop is not
    structurally recursive, so it is run with a step budget: [None] means the
    budget was used up before the list became empty. *)
Fixpoint walk (fuel : nat) (c : client) (roots : loc) (folders : gset string)
  (h : store) : option (gset string * store) :=
  match fuel with
  | O => None
  | S fuel' =>
      match h !!! roots with
      | [] => Some (folders, h)
      | r :: rest =>
          let h1 := <[roots := rest]> h in
          let st := foldl (visit_page roots) (h1, folders)
                          (c r ORGANIZATIONAL_UNIT) in
          walk fuel' c roots st.2 st.1
      end
  end.

(** [AccountHierarchy.get_ous_for_roots(client, roots)]: returns the set
    [folders] and the store as the call leaves it. *)
Definition get_ous_for_roots (fuel : nat) (c : client) (roots : loc)
  (h : store) : option (gset string * store) :=
  walk fuel c roots (list_to_set (h !!! roots)) h.

(** [AccountHierarchy.get_accounts_for_ous(client, ous)]: iterates over [ous]
    without changing it and unions the ids of the account-typed children. *)
Definition get_accounts_for_ous (c : client) (ous : list string) : gset string :=
  foldl (fun account_ids o =>
           foldl (fun ids p => ids ∪ list_to_set (page_ids p))
                 account_ids (c o ACCOUNT))
        ∅ ous.

(** The [ou] filter object: [self.data["units"]] is a reference to the list
    of configured unit ids. *)
Record OrganizationUnit := { units : loc }.

(** [OrganizationUnit.process(resources)]: the configured list object itself
    is passed to [get_ous_for_roots]. *)
Definition process (fuel : nat) (c : client) (self : OrganizationUnit)
  (resources : list account) (h : store) : option (list account * store) :=
  match get_ous_for_roots fuel c (units self) h with
  | None => None
  | Some (ous, h') =>
      let account_ids := get_accounts_for_ous c (elements ous) in
      Some (filter (fun r => Id r ∈ account_ids) resources, h')
  end.

(** ** The tree seen through the listing collaborator *)

(** The group-typed children of a unit, over all pages. *)
Definition ou_children (c : client) (p : string) : list string :=
  concat (page_ids <$> c p ORGANIZATIONAL_UNIT).

(** [parent_of c p x]: [x] is listed as a group-typed child of [p]. *)
Definition parent_of (c : client) (p x : string) : Prop := x ∈ ou_children c p.

(** [child_of c x p]: the same edge, read upwards. *)
Definition child_of (c : client) (x p : string) : Prop := parent_of c p x.

(** The frontier loop on plain values: the same steps as [walk], on a
    frontier list instead of a list object in the store. *)
Fixpoint expand (fuel : nat) (c : client) (frontier : list string)
  (folders : gset string) : option (gset string) :=
  match fuel with
  | O => None
  | S fuel' =>
      match frontier with
      | [] => Some folders
      | r :: rest =>
          expand fuel' c (rest ++ ou_children c r)
                 (folders ∪ list_to_set (ou_children c r))
      end
  end.

(** The tree of the specification's examples: the root [R] has the group [A]
    and the account [B]; [A] has the group [C]; [C] has the account [X].  A
    unit without children answers with one page that has no ["Children"]. *)
Definition example_client : client := fun p t =>
  match t with
  | ORGANIZATIONAL_UNIT =>
      if String.eqb p "R" then [Page (Some ["A"])]
      else if String.eqb p "A" then [Page (Some []); Page (Some ["C"])]
      else [Page None]
  | ACCOUNT =>
      if String.eqb p "R" then [Page (Some ["B"])]
      else if String.eqb p "C" then [Page (Some ["X"])]
      else [Page None]
  end.

(** A tree with a cycle: the unit [L] lists itself as a child. *)
Definition looping_client : client := fun p t =>
  match t with
  | ORGANIZATIONAL_UNIT => if String.eqb p "L" then [Page (Some ["L"])] else []
  | ACCOUNT => []
  end.

(** The number of loop iterations a unit costs: itself and, recursively, its
    group-typed children. *)
Inductive weight (c : client) : string -> nat -> Prop :=
| weight_node r ks :
    Forall2 (weight c) (ou_children c r) ks ->
    weight c r (S (list_sum ks)).

Section walk_facts.
Variable c : client.

Lemma foldl_visit_page (l : loc) (h : store) (xs : list string)
  (fo : gset string) (ps : list page) :
  foldl (visit_page l) (<[l := xs]> h, fo) ps
  = (<[l := xs ++ concat (page_ids <$> ps)]> h,
     fo ∪ list_to_set (concat (page_ids <$> ps))).
Proof.
  revert xs fo. induction ps as [|p ps IH]; intros xs fo; simpl.
  - rewrite app_nil_r. f_equal. set_solver.
  - unfold visit_page at 2. simpl.
    rewrite lookup_total_insert_eq, insert_insert_eq, IH.
    rewrite <- app_assoc. f_equal.
    rewrite list_to_set_app_L. set_solver.
Qed.

(** [walk] on a store whose cell [l] holds the frontier is [expand]. *)
Lemma walk_expand (fuel : nat) (l : loc) (h : store) (xs : list string)
  (fo : gset string) :
  h !!! l = xs ->
  walk fuel c l fo h
  = (fun fo' => (fo', match xs with [] => h | _ => <[l := []]> h end))
      <$> expand fuel c xs fo.
Proof.
  revert h xs fo. induction fuel as [|n IH]; intros h xs fo Hl; [done|].
  simpl. rewrite Hl. destruct xs as [|r rest]; [done|].
  rewrite foldl_visit_page. simpl.
  fold (ou_children c r).
  rewrite (IH _ (rest ++ ou_children c r)) by apply lookup_total_insert_eq.
  destruct (expand n c (rest ++ ou_children c r) _) as [fo'|]; [|done].
  simpl. f_equal. f_equal.
  destruct (rest ++ ou_children c r); [done | by rewrite insert_insert_eq].
Qed.

(** A larger budget does not change a result. *)
Lemma expand_fuel_mono (n m : nat) (fr : list string) (fo fo' : gset string) :
  n <= m -> expand n c fr fo = Some fo' -> expand m c fr fo = Some fo'.
Proof.
  revert m fr fo. induction n as [|n IH]; intros m fr fo Hle Hn; [done|].
  destruct m as [|m]; [lia|]. simpl in *.
  destruct fr as [|r rest]; [done|]. apply IH; [lia | done].
Qed.

Lemma weight_pos (r : string) (k : nat) : weight c r k -> 0 < k.
Proof. destruct 1. lia. Qed.

(** The loop runs for exactly the total weight of the frontier. *)
Lemma expand_terminates (n : nat) :
  forall (fr : list string) (ks : list nat) (fo : gset string),
    Forall2 (weight c) fr ks -> list_sum ks = n ->
    exists fo', expand (S n) c fr fo = Some fo'.
Proof.
  induction n as [|n IH]; intros fr ks fo Hw Hsum.
  - destruct Hw as [|r k fr ks Hr Hw]; [by eexists|].
    apply weight_pos in Hr. simpl in Hsum. lia.
  - destruct Hw as [|r k fr ks Hr Hw]; [by eexists|].
    destruct Hr as [r kcs Hkids]. simpl in Hsum.
    change (expand (S (S n)) c (r :: fr) fo)
      with (expand (S n) c (fr ++ ou_children c r)
                   (fo ∪ list_to_set (ou_children c r))).
    apply (IH _ (ks ++ kcs)).
    + by apply Forall2_app.
    + rewrite list_sum_app. lia.
Qed.

(** A unit below which the tree is well founded has a weight. *)
Lemma Acc_weight (r : string) : Acc (child_of c) r -> exists k, weight c r k.
Proof.
  induction 1 as [r _ IH].
  assert (exists ks, Forall2 (weight c) (ou_children c r) ks) as [ks Hks].
  { assert (forall x, x ∈ ou_children c r -> exists k, weight c x k) as Hall
      by (intros x Hx; by apply IH).
    clear IH. induction (ou_children c r) as [|x xs IHxs].
    - by exists [].
    - destruct (Hall x) as [k Hk]; [left|].
      destruct IHxs as [ks Hks]; [intros y Hy; apply Hall; by right|].
      exists (k :: ks). by constructor. }
  eexists. by constructor.
Qed.

Lemma Acc_weights (fr : list string) :
  (forall r, r ∈ fr -> Acc (child_of c) r) ->
  exists ks, Forall2 (weight c) fr ks.
Proof.
  induction fr as [|r fr IH]; intros Hacc.
  - by exists [].
  - destruct (Acc_weight r) as [k Hk]; [apply Hacc; left|].
    destruct IH as [ks Hks]; [intros y Hy; apply Hacc; by right|].
    exists (k :: ks). by constructor.
Qed.

(** In a finite tree without cycles every unit is accessible: along any
    descending path the units are pairwise distinct members of [V]. *)
Lemma finite_acyclic_Acc (V : list string) :
  (forall p x, parent_of c p x -> x ∈ V) ->
  (forall x, ~ tc (parent_of c) x x) ->
  forall x, Acc (child_of c) x.
Proof.
  intros Hfin Hacyc.
  assert (forall n path x,
            NoDup path -> (forall y, y ∈ path -> y ∈ V) ->
            (forall y, y ∈ path -> rtc (parent_of c) y x) ->
            length V <= length path + n -> Acc (child_of c) x) as Hgen.
  { induction n as [|n IH]; intros path x Hnd Hsub Hanc Hlen;
      constructor; intros k Hk.
    - exfalso.
      assert (k ∉ path) as Hfresh.
      { intros Hin. apply (Hacyc k).
        eapply tc_rtc_l; [by apply Hanc | by apply tc_once]. }
      assert (length (k :: path) <= length V) as Hle.
      { apply submseteq_length, NoDup_submseteq; [by constructor|].
        intros y [->|Hy]%elem_of_cons; [by eapply Hfin | by apply Hsub]. }
      simpl in Hle. lia.
    - assert (k ∉ path) as Hfresh.
      { intros Hin. apply (Hacyc k).
        eapply tc_rtc_l; [by apply Hanc | by apply tc_once]. }
      apply (IH (k :: path)).
      + by constructor.
      + intros y [->|Hy]%elem_of_cons; [by eapply Hfin | by apply Hsub].
      + intros y [->|Hy]%elem_of_cons; [done|].
        eapply rtc_r; [by apply Hanc | done].
      + simpl. lia. }
  intros x. apply (Hgen (length V) [] x).
  - constructor.
  - intros y Hy. by apply elem_of_nil in Hy.
  - intros y Hy. by apply elem_of_nil in Hy.
  - simpl. lia.
Qed.

(** What the loop adds to [folders]: the strict descendants of the frontier. *)
Lemma expand_spec (n : nat) :
  forall (fr : list string) (fo fo' : gset string),
    expand n c fr fo = Some fo' ->
    forall x, x ∈ fo' <-> x ∈ fo \/ exists r, r ∈ fr /\ tc (parent_of c) r x.
Proof.
  induction n as [|n IH]; intros fr fo fo' Hrun x; [done|].
  simpl in Hrun. destruct fr as [|r rest].
  - injection Hrun as <-. split; [by left|].
    intros [?|(r & Hr & _)]; [done|]. by apply elem_of_nil in Hr.
  - rewrite (IH _ _ _ Hrun x). clear IH Hrun.
    rewrite elem_of_union, elem_of_list_to_set. split.
    + intros [[Hx|Hx]|(k & Hk & Hkx)].
      * by left.
      * right. exists r. split; [left|]. by apply tc_once.
      * right. apply elem_of_app in Hk as [Hk|Hk].
        -- exists k. split; [by right|done].
        -- exists r. split; [left|]. by eapply tc_l.
    + intros [Hx|(k & Hk & Hkx)]; [by left; left|].
      apply elem_of_cons in Hk as [->|Hk].
      * inversion Hkx as [? ? Hedge|? y ? Hedge Hrest]; subst.
        -- left. by right.
        -- right. exists y. split; [|done].
           apply elem_of_app. by right.
      * right. exists k. split; [|done]. apply elem_of_app. by left.
Qed.

(** [get_ous_for_roots] in terms of the frontier loop on values. *)
Lemma get_ous_for_roots_expand (fuel : nat) (l : loc) (h : store) :
  get_ous_for_roots fuel c l h
  = (fun fo => (fo, match h !!! l with [] => h | _ => <[l := []]> h end))
      <$> expand fuel c (h !!! l) (list_to_set (h !!! l)).
Proof. unfold get_ous_for_roots. by apply walk_expand. Qed.

(** When the call returns, the list object it was given is empty and no
    other list has changed. *)
Lemma get_ous_for_roots_final (fuel : nat) (l : loc) (h h' : store)
  (fo : gset string) :
  get_ous_for_roots fuel c l h = Some (fo, h') ->
  h' !!! l = [] /\ forall l', l' ≠ l -> h' !! l' = h !! l'.
Proof.
  rewrite get_ous_for_roots_expand. intros Hrun.
  destruct (expand fuel c _ _) as [fo1|]; [|done].
  simpl in Hrun. injection Hrun as _ <-.
  destruct (h !!! l) eqn:Hl; [done|]. split.
  - apply lookup_total_insert_eq.
  - intros l' Hne. by apply lookup_insert_ne.
Qed.

(** On an empty list object the call returns the empty set at once. *)
Lemma get_ous_for_roots_nil (n : nat) (l : loc) (h : store) :
  h !!! l = [] -> get_ous_for_roots (S n) c l h = Some (∅, h).
Proof. intros Hl. unfold get_ous_for_roots. simpl. by rewrite Hl. Qed.

(** One round of the loop on the list object. *)
Lemma walk_step (n : nat) (l : loc) (h : store) (r : string)
  (rest : list string) (fo : gset string) :
  h !!! l = r :: rest ->
  walk (S n) c l fo h
  = walk n c l (fo ∪ list_to_set (ou_children c r))
         (<[l := rest ++ ou_children c r]> h).
Proof.
  intros Hl. simpl. rewrite Hl, foldl_visit_page. done.
Qed.

(** The set returned depends on the contents of the list only. *)
Lemma get_ous_for_roots_contents (fuel : nat) (l1 l2 : loc) (h1 h2 : store) :
  h1 !!! l1 = h2 !!! l2 ->
  fst <$> get_ous_for_roots fuel c l1 h1
  = fst <$> get_ous_for_roots fuel c l2 h2.
Proof.
  intros Heq. rewrite !get_ous_for_roots_expand, Heq.
  by destruct (expand fuel c _ _).
Qed.

(** Termination from accessibility of the roots. *)
Lemma get_ous_for_roots_Acc (l : loc) (h : store) :
  (forall r, r ∈ h !!! l -> Acc (child_of c) r) ->
  exists n fo h',
    (forall fuel, n <= fuel -> get_ous_for_roots fuel c l h = Some (fo, h'))
    /\ h' !!! l = []
    /\ (forall x, x ∈ fo <->
                  exists r, r ∈ h !!! l /\ rtc (parent_of c) r x).
Proof.
  intros Hacc. destruct (Acc_weights _ Hacc) as [ks Hks].
  destruct (expand_terminates _ _ _ (list_to_set (h !!! l)) Hks eq_refl)
    as [fo Hfo].
  exists (S (list_sum ks)), fo,
    (match h !!! l with [] => h | _ => <[l := []]> h end).
  split; [|split].
  - intros fuel Hle. rewrite get_ous_for_roots_expand.
    by rewrite (expand_fuel_mono _ _ _ _ _ Hle Hfo).
  - destruct (h !!! l) eqn:Hl; [done | apply lookup_total_insert_eq].
  - intros x. rewrite (expand_spec _ _ _ _ Hfo x), elem_of_list_to_set.
    split.
    + intros [Hx|(r & Hr & Hrx)]; [by exists x|].
      exists r. split; [done | by apply tc_rtc].
    + intros (r & Hr & Hrx). apply rtc_tc in Hrx as [<-|Hrx]; [by left|].
      right. by exists r.
Qed.

End walk_facts.

(** ** The example tree *)

Lemma example_ou_children (p : string) :
  ou_children example_client p
  = if String.eqb p "R" then ["A"] else if String.eqb p "A" then ["C"] else [].
Proof.
  unfold ou_children, example_client.
  by destruct (String.eqb p "R"), (String.eqb p "A").
Qed.

Lemma example_parent_of (p x : string) :
  parent_of example_client p x
  <-> (p = "R" /\ x = "A") \/ (p = "A" /\ x = "C").
Proof.
  unfold parent_of. rewrite example_ou_children.
  destruct (String.eqb_spec p "R") as [->|HR].
  - rewrite list_elem_of_singleton. naive_solver.
  - destruct (String.eqb_spec p "A") as [->|HA].
    + rewrite list_elem_of_singleton. naive_solver.
    + rewrite elem_of_nil. naive_solver.
Qed.

Lemma example_finite (p x : string) :
  parent_of example_client p x -> x ∈ ["A"; "C"].
Proof. rewrite example_parent_of. set_solver. Qed.

Lemma example_descends (x y : string) :
  tc (parent_of example_client) x y ->
  (x = "R" /\ (y = "A" \/ y = "C")) \/ (x = "A" /\ y = "C").
Proof.
  induction 1 as [x y H|x y z H _ IH]; apply example_parent_of in H;
    naive_solver.
Qed.

Lemma example_acyclic (x : string) : ~ tc (parent_of example_client) x x.
Proof. intros H. apply example_descends in H. naive_solver. Qed.

(** On the cyclic tree the loop never empties its frontier. *)
Lemma looping_expand (n : nat) (fo : gset string) :
  expand n looping_client ["L"] fo = None.
Proof.
  revert fo. induction n as [|n IH]; intros fo; [done|]. simpl. apply IH.
Qed.

Lemma looping_diverges (fuel : nat) (l : loc) (h : store) :
  h !!! l = ["L"] -> get_ous_for_roots fuel looping_client l h = None.
Proof.
  intros Hl. rewrite get_ous_for_roots_expand, Hl.
  by rewrite looping_expand.
Qed.

(** ** Properties of the tree walk *)

(** A chain [R] - [A] - [C] is walked in four rounds. *)
Lemma expand_chain (c : client) (R A C : string) (fuel : nat) :
  ou_children c R = [A] -> ou_children c A = [C] -> ou_children c C = [] ->
  4 <= fuel ->
  expand fuel c [R] (list_to_set [R]) = Some {[R; A; C]}.
Proof.
  intros HR HA HC Hfuel. do 4 (destruct fuel as [|fuel]; [lia|]).
  simpl. rewrite HR. simpl. rewrite HA. simpl. rewrite HC.
  simpl. f_equal. set_solver.
Qed.

Lemma get_accounts_for_ous_nil (c : client) : get_accounts_for_ous c [] = ∅.
Proof. done. Qed.

Lemma filter_no_account (ids : gset string) (resources : list account) :
  ids = ∅ -> filter (fun r => Id r ∈ ids) resources = [].
Proof.
  intros ->. induction resources as [|r rs IH]; [done|].
  rewrite filter_cons. destruct (decide _) as [Hin|_]; [set_solver | done].
Qed.



(** C8 (re-expansion), evaluated on the example tree: the first call on the
    list object [[R]] returns [{R, A, C}] and leaves the object empty, so
    the second call on the same object returns the empty set. *)
Theorem get_ous_for_roots_twice_same_list :
  exists h1 h2 : store,
    get_ous_for_roots 4 example_client 0 {[0 := ["R"]]}
    = Some ({["R"; "A"; "C"]}, h1)
    /\ h1 !!! 0 = []
    /\ get_ous_for_roots 4 example_client 0 h1 = Some (∅, h2)
    /\ ({["R"; "A"; "C"]} : gset string) ≠ ∅.
Proof.
  exists (<[0 := []]> {[0 := ["R"]]}), (<[0 := []]> {[0 := ["R"]]}).
  split; [|split; [|split]].
  - rewrite get_ous_for_roots_expand.
    change (({[0 := ["R"]]} : store) !!! 0) with ["R"].
    by rewrite (expand_chain example_client "R" "A" "C" 4).
  - apply lookup_total_insert_eq.
  - apply get_ous_for_roots_nil, lookup_total_insert_eq.
  - set_solver.
Qed.

(** C9 (the roots argument is consumed).  When a call on the filter's
    [units] list returns, that list object is empty and no other list has
    changed; each round of the loop removes the head of the object and
    appends the listed group-typed children to it; and since [process]
    passes the configured list object itself, a later run of the same
    filter finds no roots and keeps no account. *)
Theorem get_ous_for_roots_consumes_roots (c : client)
  (self : OrganizationUnit) (fuel : nat) (h h' : store)
  (folders : gset string) :
  get_ous_for_roots fuel c (units self) h = Some (folders, h') ->
  (h' !!! units self = [] /\ forall l, l ≠ units self -> h' !! l = h !! l)
  /\ (forall n g r rest fo,
         g !!! units self = r :: rest ->
         walk (S n) c (units self) fo g
         = walk n c (units self) (fo ∪ list_to_set (ou_children c r))
                (<[units self := rest ++ ou_children c r]> g))
  /\ (forall resources,
         exists kept, process fuel c self resources h = Some (kept, h'))
  /\ (forall n resources,
         get_ous_for_roots (S n) c (units self) h' = Some (∅, h')
         /\ process (S n) c self resources h' = Some ([], h')).
Proof.
  intros Hrun.
  destruct (get_ous_for_roots_final c _ _ _ _ _ Hrun) as [Hnil Hframe].
  split; [done|]. split; [|split].
  - intros n g r rest fo Hg. by apply walk_step.
  - intros resources. unfold process. rewrite Hrun. by eexists.
  - intros n resources.
    pose proof (get_ous_for_roots_nil c n _ _ Hnil) as Hagain.
    split; [done|]. unfold process. rewrite Hagain.
    rewrite filter_no_account; [done|].
    by rewrite elements_empty.
Qed.

Lemma get_ous_for_roots_consumes_roots_witness :
  let self := {| units := 0 |} in
  let h : store := {[0 := ["R"]]} in
  let h' : store := <[0 := []]> h in
  get_ous_for_roots 4 example_client 0 h = Some ({["R"; "A"; "C"]}, h')
  /\ h' !!! 0 = []
  /\ process 1 example_client self [Account "X" "x"] h'
     = Some ([], h').
Proof.
  intros self h h'.
  assert (get_ous_for_roots 4 example_client (units self) h
          = Some ({["R"; "A"; "C"]}, h')) as Hrun.
  { rewrite get_ous_for_roots_expand.
    change (h !!! units self) with ["R"].
    by rewrite (expand_chain example_client "R" "A" "C" 4). }
  split; [exact Hrun|].
  destruct (get_ous_for_roots_consumes_roots example_client self 4 h h'
              {["R"; "A"; "C"]} Hrun) as ([Hnil _] & _ & _ & Hagain).
  split; [exact Hnil|]. exact (proj2 (Hagain 0 [Account "X" "x"])).
Defined.

(** C10 (termination).  On a finite tree (every listed group-typed child
    belongs to the finite list [V]) without cycles, the frontier loop of
    [get_ous_for_roots] stops: from some budget on the call returns, always
    with the same set, and the frontier list object is empty. *)
Theorem get_ous_for_roots_terminates (c : client) (V : list string)
  (roots : loc) (h : store) :
  (forall p x, parent_of c p x -> x ∈ V) ->
  (forall x, ~ tc (parent_of c) x x) ->
  exists n folders h',
    (forall fuel, n <= fuel ->
                  get_ous_for_roots fuel c roots h = Some (folders, h'))
    /\ h' !!! roots = [].
Proof.
  intros Hfin Hacyc.
  destruct (get_ous_for_roots_Acc c roots h)
    as (n & fo & h' & Hrun & Hnil & _).
  - intros r _. by apply (finite_acyclic_Acc c V).
  - by exists n, fo, h'.
Qed.

Lemma get_ous_for_roots_terminates_witness :
  exists n folders h',
    (forall fuel, n <= fuel ->
       get_ous_for_roots fuel example_client 0 {[0 := ["R"; "A"]]}
       = Some (folders, h'))
    /\ h' !!! 0 = [].
Proof.
  apply (get_ous_for_roots_terminates example_client ["A"; "C"] 0
           {[0 := ["R"; "A"]]}).
  - exact example_finite.
  - exact example_acyclic.
Defined.

End Hierarchy.

(** * Python values, exceptions and outcomes *)

Module Py.

(** The exceptions the code can meet.  [ClientError] is botocore's; the last
    three derive from [BaseException] but not from [Exception], so an
    [except Exception] clause does not catch them. *)
Inductive exn :=
| ClientError (code : string)
| KeyError (key : string)
| IndexError
| ValueError (msg : string)
| NotImplementedError
| OtherException (name : string)
| KeyboardInterrupt
| SystemExit
| GeneratorExit.

(** [isinstance(e, Exception)] *)
Definition is_Exception (e : exn) : bool :=
  match e with
  | KeyboardInterrupt | SystemExit | GeneratorExit => false
  | _ => true
  end.

(** [isinstance(e, ClientError)] *)
Definition is_ClientError (e : exn) : bool :=
  match e with ClientError _ => true | _ => false end.

(** A call either returns a value or raises. *)
Inductive outcome (A : Type) :=
| Return (a : A)
| Raise (e : exn).
Arguments Return {A} a.
Arguments Raise {A} e.

(** The values a per-region operation can return. *)
Inductive value :=
| VNone
| VBool (b : bool)
| VInt (n : Z)
| VStr (s : string).

(** [bool(s)] for a string. *)
Definition str_truthy (s : string) : bool :=
  match s with EmptyString => false | _ => true end.

(** [bool(v)] for an optional string ([None] is falsy). *)
Definition opt_truthy (o : option string) : bool :=
  match o with Some s => str_truthy s | None => false end.

(** [bool(v)] *)
Definition truthy (v : value) : bool :=
  match v with
  | VNone => false
  | VBool b => b
  | VInt n => negb (Z.eqb n 0)
  | VStr s => str_truthy s
  end.

End Py.

(** * Role identifiers: the first lines of [account_session] *)

Module Role.
Import Py.

(** [str.format] with the single keyword argument [org_account_id], for
    templates whose replacement fields are plain names.  The scanner reads
    the template left to right, in text mode ([None]) or inside a
    replacement field whose name read so far is [n] ([Some n]). *)

Definition is_digit (c : ascii) : bool :=
  ((48 <=? nat_of_ascii c)%nat && (nat_of_ascii c <=? 57)%nat).

(** Strings are sequences of bytes here; a byte below 128 is a character of
    ASCII. *)
Definition is_ascii (c : ascii) : bool := (nat_of_ascii c <? 128)%nat.

(** The value of a replacement field with a plain name: an empty or numeric
    name indexes the (empty) positional arguments, any other name is looked
    up among the keyword arguments.  A numeric name of more than 18 digits
    may not fit an index and is left out ([None]); so is a name with a byte
    outside ASCII, which may spell decimal digits of another script, read
    by Python as an index. *)
Definition render_field (name id : string) : option (outcome string) :=
  if negb (forallb is_ascii (list_ascii_of_string name)) then None
  else if forallb is_digit (list_ascii_of_string name) then
    if (18 <? String.length name)%nat then None else Some (Raise IndexError)
  else if String.eqb name "org_account_id" then Some (Return id)
  else Some (Raise (KeyError name)).

(** Prefix the text produced so far to the rest of the result. *)
Definition emit (pre : string) (r : option (outcome string))
  : option (outcome string) :=
  match r with
  | Some (Return s) => Some (Return (pre +:+ s))
  | other => other
  end.

(** The characters that make a replacement field more than a plain name:
    conversion, format specification, attribute and index access, nesting. *)
Definition field_special (c : ascii) : bool :=
  Ascii.eqb c "!" || Ascii.eqb c ":" || Ascii.eqb c "." || Ascii.eqb c "["
  || Ascii.eqb c "{".

(** [format_scan m t id]: [None] when the template uses a replacement field
    outside the plain-name fragment, otherwise what
    [t.format(org_account_id=id)] does.  The first error met from the left
    is the one raised. *)
Fixpoint format_scan (m : option string) (t id : string) {struct t}
  : option (outcome string) :=
  match t with
  | EmptyString =>
      match m with
      | None => Some (Return "")
      | Some _ => Some (Raise (ValueError "expected '}' before end of string"))
      end
  | String c t' =>
      match m with
      | None =>
          if Ascii.eqb c "{" then
            match t' with
            | EmptyString =>
                Some (Raise (ValueError "Single '{' encountered in format string"))
            | String c' t'' =>
                if Ascii.eqb c' "{" then emit "{" (format_scan None t'' id)
                else format_scan (Some "") t' id
            end
          else if Ascii.eqb c "}" then
            match t' with
            | EmptyString =>
                Some (Raise (ValueError "Single '}' encountered in format string"))
            | String c' t'' =>
                if Ascii.eqb c' "}" then emit "}" (format_scan None t'' id)
                else Some (Raise (ValueError "Single '}' encountered in format string"))
            end
          else emit (String c "") (format_scan None t' id)
      | Some name =>
          if Ascii.eqb c "}" then
            match render_field name id with
            | Some (Return v) => emit v (format_scan None t' id)
            | other => other
            end
          else if field_special c then None
          else format_scan (Some (name +:+ String c "")) t' id
      end
  end.

(** [template.format(org_account_id=id)].  Templates outside the fragment
    above are left to [ext], which stands for Python's own [str.format]. *)
Definition str_format (ext : string -> string -> outcome string)
  (template id : string) : outcome string :=
  match format_scan None template id with
  | Some r => r
  | None => ext template id
  end.

(** Lines 331-334 of [account_session]:
    [if role.startswith("arn"): role = role.format(org_account_id=account["Id"])]
    [else: role = f"arn:aws:iam::{account['Id']}:role/{role}"]. *)
Definition resolve_role (ext : string -> string -> outcome string)
  (role id : string) : outcome string :=
  if String.prefix "arn" role then str_format ext role id
  else Return ("arn:aws:iam::" +:+ id +:+ ":role/" +:+ role).

(** A template seen as literal text and placeholders. *)
Inductive piece :=
| Lit (s : string)
| Hole.

Definition brace_free (s : string) : bool :=
  forallb (fun c => negb (Ascii.eqb c "{" || Ascii.eqb c "}"))
          (list_ascii_of_string s).

Definition piece_ok (p : piece) : bool :=
  match p with Lit s => brace_free s | Hole => true end.

(** The template string the pieces spell. *)
Fixpoint template_of (ps : list piece) : string :=
  match ps with
  | [] => ""
  | Lit s :: ps' => s +:+ template_of ps'
  | Hole :: ps' => "{org_account_id}" +:+ template_of ps'
  end.

(** The pieces with the id written in place of each placeholder. *)
Fixpoint instance_of (id : string) (ps : list piece) : string :=
  match ps with
  | [] => ""
  | Lit s :: ps' => s +:+ instance_of id ps'
  | Hole :: ps' => id +:+ instance_of id ps'
  end.

Lemma format_scan_literal (s rest id : string) :
  brace_free s = true ->
  format_scan None (s +:+ rest) id = emit s (format_scan None rest id).
Proof.
  induction s as [|c s IH]; intros Hs.
  - change ("" +:+ rest) with rest.
    by destruct (format_scan None rest id) as [[?|?]|].
  - unfold brace_free in Hs. simpl in Hs.
    apply andb_prop in Hs as [Hc Hs].
    apply negb_true_iff, orb_false_iff in Hc as [Hc1 Hc2].
    change (String c s +:+ rest) with (String c (s +:+ rest)).
    simpl. rewrite Hc1, Hc2, (IH Hs).
    by destruct (format_scan None rest id) as [[?|?]|].
Qed.

Lemma format_scan_hole (rest id : string) :
  format_scan None ("{org_account_id}" +:+ rest) id
  = emit id (format_scan None rest id).
Proof. reflexivity. Qed.

Lemma format_scan_pieces (ps : list piece) (id : string) :
  forallb piece_ok ps = true ->
  format_scan None (template_of ps) id = Some (Return (instance_of id ps)).
Proof.
  induction ps as [|[s|] ps IH]; intros Hok; simpl in Hok;
    cbn [template_of instance_of].
  - done.
  - apply andb_prop in Hok as [Hs Hok].
    by rewrite format_scan_literal, (IH Hok).
  - by rewrite format_scan_hole, (IH Hok).
Qed.

(** ** Examples *)

Example format_template (ext : string -> string -> outcome string) :
  str_format ext "arn:aws:iam::{org_account_id}:role/Admin" "123456789012"
  = Return "arn:aws:iam::123456789012:role/Admin".
Proof. reflexivity. Qed.

Example format_escaped_braces (ext : string -> string -> outcome string) :
  str_format ext "arn:{{x}}:{org_account_id}" "1" = Return "arn:{x}:1".
Proof. reflexivity. Qed.

Example format_unknown_field (ext : string -> string -> outcome string) :
  str_format ext "arn:aws:iam::{org_account_id}:role/{team}" "1"
  = Raise (KeyError "team").
Proof. reflexivity. Qed.

Example format_positional_field (ext : string -> string -> outcome string) :
  str_format ext "arn:aws:iam::{}:role/Admin" "1" = Raise IndexError.
Proof. reflexivity. Qed.

Example format_conversion (ext : string -> string -> outcome string) :
  str_format ext "arn:{org_account_id!r}" "1"
  = ext "arn:{org_account_id!r}" "1".
Proof. reflexivity. Qed.

(** A field name outside ASCII, here the two bytes of an Arabic-Indic
    digit, is left to Python's own [str.format]. *)
Example format_non_ascii_field (ext : string -> string -> outcome string) :
  let name := String (ascii_of_nat 217) (String (ascii_of_nat 163) "") in
  str_format ext ("arn:{" +:+ name +:+ "}") "1"
  = ext ("arn:{" +:+ name +:+ "}") "1".
Proof. reflexivity. Qed.

(** The test for a template is the prefix ["arn"]: a role name that begins
    with these letters is formatted, not completed. *)
Example resolve_role_prefixed_name (ext : string -> string -> outcome string)
  (id : string) :
  resolve_role ext "arnold" id = Return "arnold".
Proof. reflexivity. Qed.

(** The id is written as it is, also when it contains braces. *)
Example format_id_verbatim (ext : string -> string -> outcome string) :
  str_format ext "arn:{org_account_id}:x" "{0}" = Return "arn:{0}:x".
Proof. reflexivity. Qed.

(** ** Role-identifier resolution *)

Lemma append_empty_r (s : string) : s +:+ "" = s.
Proof.
  induction s as [|c s IH]; [done|].
  change (String c s +:+ "") with (String c (s +:+ "")). by rewrite IH.
Qed.

(** A role without braces is its own template. *)
Lemma format_scan_brace_free (role id : string) :
  brace_free role = true ->
  format_scan None role id = Some (Return role).
Proof.
  intros Hfree. rewrite <- (append_empty_r role) at 1.
  rewrite (format_scan_literal role "" id Hfree). simpl.
  by rewrite append_empty_r.
Qed.

(** C4 (role-identifier resolution).  The code takes a role for a template
    exactly when it begins with the letters ["arn"].  Such a role is
    formatted: when it is made of brace-free text and [{org_account_id}]
    placeholders, the resolved identifier is the template with the account
    id written in place of every placeholder, and when it has no brace at
    all it is returned as it is, also when it is a bare role name such as
    [arnold].  A role that does not begin with ["arn"] is completed: the
    resolved identifier is [arn:aws:iam::<id>:role/<role>]. *)
Theorem resolve_role_spec (ext : string -> string -> outcome string)
  (id : string) :
  (forall ps : list piece,
      forallb piece_ok ps = true ->
      String.prefix "arn" (template_of ps) = true ->
      resolve_role ext (template_of ps) id = Return (instance_of id ps))
  /\ (forall role : string,
         String.prefix "arn" role = false ->
         resolve_role ext role id
         = Return ("arn:aws:iam::" +:+ id +:+ ":role/" +:+ role))
  /\ (forall role : string,
         String.prefix "arn" role = true ->
         brace_free role = true ->
         resolve_role ext role id = Return role).
Proof.
  split; [|split].
  - intros ps Hok Harn. unfold resolve_role, str_format.
    by rewrite Harn, format_scan_pieces.
  - intros role Harn. unfold resolve_role. by rewrite Harn.
  - intros role Harn Hfree. unfold resolve_role, str_format.
    by rewrite Harn, format_scan_brace_free.
Qed.

Lemma resolve_role_spec_witness :
  resolve_role (fun _ _ => Raise (ValueError "unsupported"))
    "arn:aws-cn:iam::{org_account_id}:role/Custodian" "123456789012"
  = Return "arn:aws-cn:iam::123456789012:role/Custodian"
  /\ resolve_role (fun _ _ => Raise (ValueError "unsupported"))
       "OrganizationAccountAccessRole" "123456789012"
     = Return "arn:aws:iam::123456789012:role/OrganizationAccountAccessRole"
  /\ resolve_role (fun _ _ => Raise (ValueError "unsupported"))
       "arnhem-readonly" "123456789012"
     = Return "arnhem-readonly".
Proof.
  split; [|split].
  - exact (proj1 (resolve_role_spec _ "123456789012")
             [Lit "arn:aws-cn:iam::"; Hole; Lit ":role/Custodian"]
             eq_refl eq_refl).
  - exact (proj1 (proj2 (resolve_role_spec _ "123456789012"))
             "OrganizationAccountAccessRole" eq_refl).
  - exact (proj2 (proj2 (resolve_role_spec _ "123456789012"))
             "arnhem-readonly" eq_refl eq_refl).
Defined.

(** The bare role name [arnold] is not completed to
    [arn:aws:iam::<id>:role/arnold]: it begins with ["arn"], is formatted,
    and comes back as it is. *)
Lemma resolve_role_bare_name_not_completed :
  resolve_role (fun _ _ => Raise (ValueError "unsupported"))
    "arnold" "123456789012"
  = Return "arnold"
  /\ (Return "arnold" : outcome string)
     <> Return "arn:aws:iam::123456789012:role/arnold".
Proof. split; [reflexivity | discriminate]. Qed.

End Role.

(** * Sessions: [OrgAccess.get_org_session] and [account_session] *)

Module Session.
Import Py Role.

(** The environment variables the code looks at. *)
Record environ := Environ {
  LAMBDA_TASK_ROOT : bool;               (* "LAMBDA_TASK_ROOT" in os.environ *)
  AWS_CONTROL_TOWER_ORG : option string  (* os.environ.get(...) *)
}.

(** The configuration of the resource manager ([OrgAccount], an
    [OrgAccess]): [self.data.get("query")], [self.data.get("mode")] and
    [self.session_factory.region]. *)
Record manager := Manager {
  data_query : option (list (gmap string string));
  data_mode : option (gmap string string);
  factory_region : string
}.

(** [params = {}; for q in self.data.get("query", ()): params.update(q)] *)
Definition query_params (self : manager) : gmap string string :=
  foldl (fun params q => q ∪ params) ∅ (default [] (data_query self)).

(** [OrgAccess.parse_access_role] *)
Definition parse_access_role (self : manager) : option string :=
  query_params self !! "org-access-role".

(** [self.data.get("mode", {}).get("member-role")] *)
Definition member_role (self : manager) : option string :=
  default ∅ (data_mode self) !! "member-role".

(** [OrgAccount.parse_query]: the value it leaves in [self.account_config]. *)
Definition parse_query (env : environ) (self : manager) : gmap string string :=
  let account_config :=
    filter (fun kv => kv.1 = "org-access-role" \/ kv.1 = "org-account-role")
           (query_params self) in
  match account_config !! "org-account-role" with
  | Some _ => account_config
  | None =>
      <["org-account-role" :=
          if opt_truthy (AWS_CONTROL_TOWER_ORG env)
          then "AWSControlTowerExecution"
          else "OrganizationAccountAccessRole"]> account_config
  end.

(** The entries the code writes to its logger, one constructor per call
    site, with the arguments of the message. *)
Inductive log_record :=
| LogProcessing (type name id : string)
| LogRegionError (type name id region : string) (e : exn)
| LogAssumeError (type name id role : string)
| LogAccountError (type name id : string) (e : exn).

Section Credentials.

(** Session objects and the state of the credential provider are left
    abstract.  Two session values are equal exactly when they are the same
    object. *)
Context {session W : Type}.

(** [c7n.credentials.assumed_session(role_arn, session_name, session, region)] *)
Variable assumed_session :
  string -> string -> session -> string -> W -> outcome session * W.
(** [c7n.utils.local_session(self.session_factory)] *)
Variable local_session : W -> outcome session * W.
(** [session.region_name] *)
Variable region_name : session -> string.
(** Python's [str.format] outside the modelled fragment. *)
Variable ext : string -> string -> outcome string.

(** The calls made to the credential provider. *)
Inductive call :=
| CallLocal
| CallAssume (role_arn session_name : string) (parent : session)
             (region : string).

(** The state the code runs in: the provider, the calls made to it so far,
    the [org_accounts] attribute of the thread-local [ACCOUNT_SESSION] for
    each thread that has set it, the [org_session] attribute of the manager
    and the log of the calling thread. *)
Record state := State {
  world : W;
  calls : list call;
  ACCOUNT_SESSION : gmap nat (gmap string session);
  org_session : option session;
  log : list log_record
}.

Definition set_world (w : W) (st : state) : state :=
  State w (calls st) (ACCOUNT_SESSION st) (org_session st) (log st).
Definition add_call (c : call) (st : state) : state :=
  State (world st) (calls st ++ [c]) (ACCOUNT_SESSION st) (org_session st)
        (log st).
Definition set_org_accounts (tid : nat) (m : gmap string session)
  (st : state) : state :=
  State (world st) (calls st) (<[tid := m]> (ACCOUNT_SESSION st))
        (org_session st) (log st).
Definition set_org_session (s : session) (st : state) : state :=
  State (world st) (calls st) (ACCOUNT_SESSION st) (Some s) (log st).
Definition add_log (r : log_record) (st : state) : state :=
  State (world st) (calls st) (ACCOUNT_SESSION st) (org_session st)
        (log st ++ [r]).

(** Computations that read and change the state and may raise. *)
Definition M (A : Type) : Type := state -> outcome A * state.

Definition ret {A : Type} (a : A) : M A := fun st => (Return a, st).

Definition lift {A : Type} (o : outcome A) : M A := fun st => (o, st).

Definition bind {A B : Type} (m : M A) (k : A -> M B) : M B :=
  fun st =>
    match m st with
    | (Return a, st') => k a st'
    | (Raise e, st') => (Raise e, st')
    end.

Notation "'let*' x := c 'in' k" := (bind c (fun x => k))
  (at level 10, x name, c at level 100, k at level 200).

Definition update (f : state -> state) : M unit := fun st => (Return tt, f st).

Definition call_assumed_session (role_arn session_name : string)
  (parent : session) (region : string) : M session :=
  fun st =>
    let r := assumed_session role_arn session_name parent region (world st) in
    (r.1, set_world r.2
            (add_call (CallAssume role_arn session_name parent region) st)).

Definition call_local_session : M session :=
  fun st =>
    let r := local_session (world st) in
    (r.1, set_world r.2 (add_call CallLocal st)).

(** [getattr(ACCOUNT_SESSION, "org_accounts", {})] in thread [tid]. *)
Definition org_accounts_of (tid : nat) (st : state) : gmap string session :=
  default ∅ (ACCOUNT_SESSION st !! tid).

(** [account_session(org_session, account, role)], called in thread [tid]. *)
Definition account_session (tid : nat) (org : session) (a : account)
  (role : string) : M session :=
  let* role := lift (resolve_role ext role (Id a)) in
  fun st =>
    let org_accounts := org_accounts_of tid st in
    match org_accounts !! role with
    | Some s => ret s st
    | None =>
        (let* s := call_assumed_session role ORG_ACCOUNT_SESSION_NAME org
                                        (region_name org) in
         let* _ := update (set_org_accounts tid (<[role := s]> org_accounts)) in
         ret s) st
    end.

(** [OrgAccess.get_org_session()] on the manager [self]. *)
Definition get_org_session (env : environ) (self : manager) : M session :=
  fun st =>
    match org_session st with
    | Some s => ret s st
    | None =>
        let org_access_role := parse_access_role self in
        if opt_truthy org_access_role
           && negb (LAMBDA_TASK_ROOT env && opt_truthy (member_role self))
        then
          (* a truthy [org_access_role] is a string *)
          (let* l := call_local_session in
           let* s := call_assumed_session (default "" org_access_role)
                       ORG_ACCOUNT_SESSION_NAME l (factory_region self) in
           let* _ := update (set_org_session s) in
           ret s) st
        else
          (let* l := call_local_session in
           let* _ := update (set_org_session l) in
           ret l) st
    end.

(** One call of either function, from any thread. *)
Inductive session_step : state -> state -> Prop :=
| step_account_session tid org a role st r st' :
    account_session tid org a role st = (r, st') -> session_step st st'
| step_get_org_session env self st r st' :
    get_org_session env self st = (r, st') -> session_step st st'.

(** ** The cache of [account_session] *)

Lemma account_session_hit (tid : nat) (org : session) (a : account)
  (role k : string) (s : session) (st : state) :
  resolve_role ext role (Id a) = Return k ->
  org_accounts_of tid st !! k = Some s ->
  account_session tid org a role st = (Return s, st).
Proof.
  intros Hk Hs. unfold account_session, bind, lift. by rewrite Hk, Hs.
Qed.

(** A miss asks the provider once, for the resolved role, under the fixed
    session name, from the organization session and in its region. *)
Lemma account_session_miss (tid : nat) (org : session) (a : account)
  (role k : string) (st : state) :
  resolve_role ext role (Id a) = Return k ->
  org_accounts_of tid st !! k = None ->
  account_session tid org a role st
  = match assumed_session k "CustodianOrgAccount" org (region_name org)
            (world st) with
    | (Return s, w) =>
        (Return s,
         State w
           (calls st ++ [CallAssume k "CustodianOrgAccount" org (region_name org)])
           (<[tid := <[k := s]> (org_accounts_of tid st)]> (ACCOUNT_SESSION st))
           (org_session st) (log st))
    | (Raise e, w) =>
        (Raise e,
         State w
           (calls st ++ [CallAssume k "CustodianOrgAccount" org (region_name org)])
           (ACCOUNT_SESSION st) (org_session st) (log st))
    end.
Proof.
  intros Hk Hs.
  unfold account_session, bind, lift, call_assumed_session, update, ret.
  rewrite Hk, Hs. unfold ORG_ACCOUNT_SESSION_NAME.
  by destruct (assumed_session k _ org _ (world st)) as [[s|e] w].
Qed.

(** A call that returns a session leaves it in the caller's cache, under
    the resolved role. *)
Lemma account_session_caches (tid : nat) (org : session) (a : account)
  (role : string) (s : session) (st st' : state) :
  account_session tid org a role st = (Return s, st') ->
  exists k, resolve_role ext role (Id a) = Return k
            /\ org_accounts_of tid st' !! k = Some s.
Proof.
  intros Hrun. destruct (resolve_role ext role (Id a)) as [k|e] eqn:Hk.
  - exists k. split; [done|].
    destruct (org_accounts_of tid st !! k) as [s0|] eqn:Hs.
    + rewrite (account_session_hit _ _ _ _ _ _ _ Hk Hs) in Hrun.
      by injection Hrun as <- <-.
    + rewrite (account_session_miss _ _ _ _ _ _ Hk Hs) in Hrun.
      destruct (assumed_session k _ org _ (world st)) as [[s1|e] w];
        [|done].
      injection Hrun as <- <-. unfold org_accounts_of. simpl.
      rewrite lookup_insert_eq. simpl. by rewrite lookup_insert_eq.
  - unfold account_session, bind, lift in Hrun. by rewrite Hk in Hrun.
Qed.

(** No call removes or replaces an entry of any thread's cache. *)
Lemma account_session_keeps (tid tid' : nat) (org : session) (a : account)
  (role k : string) (s : session) (r : outcome session) (st st' : state) :
  org_accounts_of tid st !! k = Some s ->
  account_session tid' org a role st = (r, st') ->
  org_accounts_of tid st' !! k = Some s.
Proof.
  intros Hs Hrun. destruct (resolve_role ext role (Id a)) as [k'|e] eqn:Hk.
  - destruct (org_accounts_of tid' st !! k') as [s0|] eqn:Hs'.
    + rewrite (account_session_hit _ _ _ _ _ _ _ Hk Hs') in Hrun.
      by injection Hrun as _ <-.
    + rewrite (account_session_miss _ _ _ _ _ _ Hk Hs') in Hrun.
      destruct (assumed_session k' _ org _ (world st)) as [[s1|e] w];
        injection Hrun as _ <-; [|done].
      unfold org_accounts_of in *. simpl.
      destruct (decide (tid' = tid)) as [->|Hne].
      * rewrite lookup_insert_eq. simpl.
        destruct (decide (k' = k)) as [->|Hnk]; [congruence|].
        by rewrite lookup_insert_ne.
      * by rewrite lookup_insert_ne.
  - unfold account_session, bind, lift in Hrun. rewrite Hk in Hrun.
    by injection Hrun as _ <-.
Qed.

Lemma get_org_session_keeps_cache (env : environ) (self : manager)
  (r : outcome session) (st st' : state) :
  get_org_session env self st = (r, st') ->
  ACCOUNT_SESSION st' = ACCOUNT_SESSION st.
Proof.
  unfold get_org_session, bind, call_local_session, call_assumed_session,
    update, ret.
  destruct (org_session st); [by intros [= _ <-]|].
  destruct (_ && _); destruct (local_session (world st)) as [[l|e] w];
    simpl; try (by intros [= _ <-]).
  destruct (assumed_session _ _ l _ w) as [[s|e] w']; simpl;
    intros [= _ <-]; reflexivity.
Qed.

Lemma session_step_keeps (tid : nat) (k : string) (s : session)
  (st st' : state) :
  org_accounts_of tid st !! k = Some s ->
  session_step st st' ->
  org_accounts_of tid st' !! k = Some s.
Proof.
  intros Hs Hstep.
  inversion Hstep as [tid' org a role st0 r st0' Hrun|env self st0 r st0' Hrun];
    subst.
  - exact (account_session_keeps _ _ _ _ _ _ _ _ _ _ Hs Hrun).
  - unfold org_accounts_of.
    by rewrite (get_org_session_keeps_cache _ _ _ _ _ Hrun).
Qed.

Lemma session_steps_keep (tid : nat) (k : string) (s : session)
  (st st' : state) :
  org_accounts_of tid st !! k = Some s ->
  rtc session_step st st' ->
  org_accounts_of tid st' !! k = Some s.
Proof.
  intros Hs Hsteps. induction Hsteps as [|st1 st2 st3 Hstep _ IH]; [done|].
  apply IH. exact (session_step_keeps _ _ _ _ _ Hs Hstep).
Qed.

(** ** The memo of [get_org_session] *)





Lemma account_session_keeps_log (tid : nat) (org : session) (a : account)
  (role : string) (r : outcome session) (st st' : state) :
  account_session tid org a role st = (r, st') -> log st' = log st.
Proof.
  intros Hrun. destruct (resolve_role ext role (Id a)) as [k|e] eqn:Hk.
  - destruct (org_accounts_of tid st !! k) as [s0|] eqn:Hs.
    + rewrite (account_session_hit _ _ _ _ _ _ _ Hk Hs) in Hrun.
      by injection Hrun as _ <-.
    + rewrite (account_session_miss _ _ _ _ _ _ Hk Hs) in Hrun.
      destruct (assumed_session k _ org _ (world st)) as [[s1|e] w];
        by injection Hrun as _ <-.
  - unfold account_session, bind, lift in Hrun. rewrite Hk in Hrun.
    by injection Hrun as _ <-.
Qed.

(** C5 (cache identity).  Once a call of [account_session] in a thread has
    returned a handle, every later call in the same thread whose role
    resolves to the same identifier returns that very handle and leaves the
    state as it is: no call to the provider is recorded and the provider's
    state is untouched.  This holds whatever calls of [account_session] and
    [get_org_session], from any thread, happen in between, and whichever
    organization session, account and role template the later call gets. *)
Theorem account_session_cache_identity (tid : nat) (org : session)
  (a : account) (role : string) (s : session) (st st1 : state) :
  account_session tid org a role st = (Return s, st1) ->
  forall st2 : state, rtc session_step st1 st2 ->
  forall (org' : session) (a' : account) (role' : string),
    resolve_role ext role' (Id a') = resolve_role ext role (Id a) ->
    account_session tid org' a' role' st2 = (Return s, st2)
    /\ calls (account_session tid org' a' role' st2).2 = calls st2
    /\ world (account_session tid org' a' role' st2).2 = world st2.
Proof.
  intros Hfirst st2 Hsteps org' a' role' Hsame.
  destruct (account_session_caches _ _ _ _ _ _ _ Hfirst) as (k & Hk & Hs).
  pose proof (session_steps_keep _ _ _ _ _ Hs Hsteps) as Hs2.
  rewrite <- Hsame in Hk.
  rewrite (account_session_hit _ _ _ _ _ _ _ Hk Hs2). done.
Qed.


End Credentials.

Notation "'let*' x := c 'in' k" := (bind c (fun x => k))
  (at level 10, x name, c at level 100, k at level 200).

(** ** A sample provider *)

(** Sessions are object identities; the provider hands out a fresh one for
    each role it lets the caller assume, and refuses roles of the suspended
    account 111111111111. *)
Definition sample_assumed_session (role_arn session_name : string)
  (parent : nat) (region : string) (w : nat) : outcome nat * nat :=
  if String.prefix "arn:aws:iam::111111111111:" role_arn
  then (Raise (ClientError "AccessDenied"), w)
  else (Return (S w), S w).

Definition sample_local_session (w : nat) : outcome nat * nat := (Return 0, w).

Definition sample_ext (template id : string) : outcome string :=
  Raise (ValueError "unsupported format string").

Definition sample_account_session :=
  account_session sample_assumed_session (fun _ => "us-east-1") sample_ext.

Definition sample_get_org_session :=
  get_org_session sample_assumed_session sample_local_session.

Definition initial_state : state (session := nat) (W := nat) :=
  State 0 [] ∅ None [].

Lemma account_session_cache_identity_witness :
  let a := Account "222222222222" "dev" in
  let first :=
    sample_account_session 7 0 a "OrganizationAccountAccessRole"
                           initial_state in
  first.1 = Return 1
  /\ calls first.2
     = [CallAssume "arn:aws:iam::222222222222:role/OrganizationAccountAccessRole"
                   "CustodianOrgAccount" 0 "us-east-1"]
  /\ sample_account_session 7 5 a
       "arn:aws:iam::{org_account_id}:role/OrganizationAccountAccessRole"
       first.2
     = (Return 1, first.2).
Proof.
  intros a first.
  assert (first = (Return 1, first.2)) as Hfirst by reflexivity.
  split; [reflexivity|]. split; [reflexivity|].
  exact (proj1 (account_session_cache_identity sample_assumed_session
                  sample_local_session (fun _ => "us-east-1") sample_ext
                  7 0 a
                  "OrganizationAccountAccessRole" 1 initial_state first.2
                  Hfirst first.2 (rtc_refl _ _) 5 a
                  "arn:aws:iam::{org_account_id}:role/OrganizationAccountAccessRole"
                  eq_refl)).
Defined.




End Session.

(** * The fan-out: [ProcessAccountSet] *)

Module Batch.
Import Py Role Session.

Section ProcessAccount.

Context {session : Type}.

(** A filter that mixes in [ProcessAccountSet]: [self.type],
    [self.data.get("regions")] and the method [process_account_region],
    which a subclass supplies.  The method is taken as a function of its
    arguments. *)
Record ProcessAccountSet := {
  type : string;
  data_regions : option (list string);
  process_account_region : account -> string -> session -> outcome value
}.

(** The class as it stands: [process_account_region] raises
    [NotImplementedError]. *)
Definition base_class (t : string) (regions : option (list string))
  : ProcessAccountSet :=
  {| type := t; data_regions := regions;
     process_account_region := fun _ _ _ => Raise NotImplementedError |}.

(** [resolve_regions]: [self.data.get("regions", ("us-east-1",))] *)
Definition resolve_regions (self : ProcessAccountSet) (a : account)
  (s : session) : list string :=
  default ["us-east-1"] (data_regions self).

(** The [for r in ...] loop of [process_account], with the entries it
    writes to the log. *)
Fixpoint region_loop (self : ProcessAccountSet) (a : account) (s : session)
  (rs : list string) (region_results : gmap string value)
  (lg : list log_record) : list log_record * outcome (gmap string value) :=
  match rs with
  | [] => (lg, Return region_results)
  | r :: rs' =>
      match process_account_region self a r s with
      | Return v => region_loop self a s rs' (<[r := v]> region_results) lg
      | Raise e =>
          if is_Exception e then
            region_loop self a s rs' (<[r := VBool false]> region_results)
              (lg ++ [LogRegionError (type self) (Name a) (Id a) r e])
          else (lg, Raise e)
      end
  end.

(** [process_account(account, session)] *)
Definition process_account (self : ProcessAccountSet) (a : account)
  (s : session) : list log_record * outcome (gmap string value) :=
  region_loop self a s (resolve_regions self a s) ∅
              [LogProcessing (type self) (Name a) (Id a)].

(** A future of the worker pool, once done: the account it was submitted
    for (the value of [futures[f]]), what the task logged, and the task's
    result or the exception it ended with. *)
Record future := Future {
  fut_account : account;
  fut_log : list log_record;
  fut_outcome : outcome (gmap string value)
}.

(** [w.submit(self.process_account, a, s)] *)
Definition submit (self : ProcessAccountSet) (a : account) (s : session)
  : future :=
  let r := process_account self a s in Future a r.1 r.2.

(** ** Auxiliary notions *)

(** The map the second loop builds, without the log. *)
Definition collect (completed : list future)
  (account_results : gmap string (gmap string value))
  : gmap string (gmap string value) :=
  foldl (fun m f =>
           match fut_outcome f with
           | Return region_results => <[Id (fut_account f) := region_results]> m
           | Raise _ => m
           end) account_results completed.

(** The entries the second loop logs. *)
Definition account_errors (self : ProcessAccountSet)
  (completed : list future) : list log_record :=
  omap (fun f =>
          match fut_outcome f with
          | Raise e => Some (LogAccountError (type self)
                               (Name (fut_account f)) (Id (fut_account f)) e)
          | Return _ => None
          end) completed.

(** An outcome the loop of [process_account] survives: a value, or an
    exception that [except Exception] catches. *)
Definition caught (o : outcome value) : Prop :=
  match o with Return _ => True | Raise e => is_Exception e = true end.

(** What the loop records for an outcome it survives. *)
Definition unit_result (o : outcome value) : value :=
  match o with Return v => v | Raise _ => VBool false end.

(** ** The loop over the regions *)

Section regions.
Variables (self : ProcessAccountSet) (a : account) (s : session).

(** The map the loop builds when it survives every region. *)
Definition recorded (rs : list string) (acc : gmap string value)
  : gmap string value :=
  foldl (fun m r => <[r := unit_result (process_account_region self a r s)]> m)
        acc rs.

Lemma recorded_lookup (rs : list string) (acc : gmap string value)
  (r : string) :
  recorded rs acc !! r
  = if decide (r ∈ rs)
    then Some (unit_result (process_account_region self a r s))
    else acc !! r.
Proof.
  revert acc. induction rs as [|r0 rs IH]; intros acc.
  - change (recorded [] acc) with acc.
    destruct (decide (r ∈ [])) as [Hin|_];
      [by apply elem_of_nil in Hin | done].
  - change (recorded (r0 :: rs) acc)
      with (recorded rs
              (<[r0 := unit_result (process_account_region self a r0 s)]> acc)).
    rewrite IH. destruct (decide (r ∈ rs)) as [Hin|Hnin].
    + rewrite decide_True; [done | by right].
    + destruct (decide (r = r0)) as [->|Hne].
      * rewrite lookup_insert_eq, decide_True; [done | left].
      * rewrite lookup_insert_ne by done.
        rewrite decide_False; [done|].
        intros [?|?]%elem_of_cons; done.
Qed.

Lemma recorded_dom (rs : list string) (acc : gmap string value) :
  dom (recorded rs acc) = list_to_set rs ∪ dom acc.
Proof.
  apply set_eq. intros r.
  rewrite elem_of_dom, recorded_lookup, elem_of_union, elem_of_list_to_set,
    elem_of_dom.
  destruct (decide (r ∈ rs)); naive_solver.
Qed.

Lemma region_loop_caught (rs : list string) (acc : gmap string value)
  (lg : list log_record) :
  (forall r, r ∈ rs -> caught (process_account_region self a r s)) ->
  exists lg', region_loop self a s rs acc lg = (lg', Return (recorded rs acc)).
Proof.
  revert acc lg. induction rs as [|r0 rs IH]; intros acc lg Hall; simpl.
  - by eexists.
  - assert (caught (process_account_region self a r0 s)) as H0
      by (apply Hall; left).
    assert (forall r, r ∈ rs -> caught (process_account_region self a r s))
      as Hrest by (intros r Hr; apply Hall; by right).
    destruct (process_account_region self a r0 s) as [v|e]; simpl in *.
    + by apply IH.
    + rewrite H0. by apply IH.
Qed.

Lemma region_loop_uncaught (rs : list string) (acc : gmap string value)
  (lg : list log_record) (r : string) (e : exn) :
  r ∈ rs ->
  process_account_region self a r s = Raise e ->
  is_Exception e = false ->
  exists lg' e', region_loop self a s rs acc lg = (lg', Raise e').
Proof.
  revert acc lg. induction rs as [|r0 rs IH]; intros acc lg Hin Hr He.
  - by apply elem_of_nil in Hin.
  - simpl. destruct (process_account_region self a r0 s) as [v|e0] eqn:H0.
    + apply IH; [|done|done].
      apply elem_of_cons in Hin as [->|Hin]; [congruence | done].
    + destruct (is_Exception e0) eqn:He0; [|by eexists _, _].
      apply IH; [|done|done].
      apply elem_of_cons in Hin as [->|Hin]; [congruence | done].
Qed.

End regions.

(** ** The map built by the second loop *)

Lemma collect_app (l1 l2 : list future)
  (acc : gmap string (gmap string value)) :
  collect (l1 ++ l2) acc = collect l2 (collect l1 acc).
Proof. unfold collect. by rewrite foldl_app. Qed.

Lemma collect_singleton (f : future) (rr : gmap string value) :
  fut_outcome f = Return rr ->
  collect [f] ∅ = {[Id (fut_account f) := rr]}.
Proof.
  intros Hf. unfold collect. simpl. rewrite Hf. by rewrite insert_empty.
Qed.

Lemma account_errors_singleton (self : ProcessAccountSet) (f : future)
  (rr : gmap string value) :
  fut_outcome f = Return rr -> account_errors self [f] = [].
Proof. intros Hf. unfold account_errors. simpl. by rewrite Hf. Qed.

(** A key for which no future succeeded is left as it was. *)
Lemma collect_lookup_other (l : list future)
  (acc : gmap string (gmap string value)) (k : string) :
  (forall f rr, f ∈ l -> fut_outcome f = Return rr ->
                Id (fut_account f) ≠ k) ->
  collect l acc !! k = acc !! k.
Proof.
  revert acc. induction l as [|f l IH]; intros acc Hne; [done|].
  change (collect (f :: l) acc)
    with (collect l (match fut_outcome f with
                     | Return rr => <[Id (fut_account f) := rr]> acc
                     | Raise _ => acc
                     end)).
  rewrite IH by (intros f' rr Hf'; apply Hne; by right).
  destruct (fut_outcome f) as [rr|e] eqn:Hf; [|done].
  apply lookup_insert_ne. apply (Hne f rr); [left | done].
Qed.

(** An entry stays when every later success for its key brings the same
    result. *)
Lemma collect_lookup_stable (l : list future)
  (acc : gmap string (gmap string value)) (k : string)
  (rr : gmap string value) :
  acc !! k = Some rr ->
  (forall f' rr', f' ∈ l -> Id (fut_account f') = k ->
                  fut_outcome f' = Return rr' -> rr' = rr) ->
  collect l acc !! k = Some rr.
Proof.
  revert acc. induction l as [|f0 l IH]; intros acc Hacc Hsame; [done|].
  change (collect (f0 :: l) acc)
    with (collect l (match fut_outcome f0 with
                     | Return rr => <[Id (fut_account f0) := rr]> acc
                     | Raise _ => acc
                     end)).
  apply IH; [|intros f' rr' Hf'; apply Hsame; by right].
  destruct (fut_outcome f0) as [rr0|e] eqn:H0; [|done].
  destruct (decide (Id (fut_account f0) = k)) as [Hk|Hk].
  - rewrite (Hsame f0 rr0); [by rewrite Hk, lookup_insert_eq | left | done
                             | done].
  - by rewrite lookup_insert_ne.
Qed.

(** When one future alone carries a key and it succeeded, the key maps to
    its result. *)
Lemma collect_lookup_unique (l : list future)
  (acc : gmap string (gmap string value)) (f : future)
  (rr : gmap string value) :
  f ∈ l ->
  fut_outcome f = Return rr ->
  (forall f', f' ∈ l -> Id (fut_account f') = Id (fut_account f) -> f' = f) ->
  collect l acc !! Id (fut_account f) = Some rr.
Proof.
  revert acc. induction l as [|f0 l IH]; intros acc Hin Hrr Huniq.
  - by apply elem_of_nil in Hin.
  - change (collect (f0 :: l) acc)
      with (collect l (match fut_outcome f0 with
                       | Return rr => <[Id (fut_account f0) := rr]> acc
                       | Raise _ => acc
                       end)).
    apply elem_of_cons in Hin as [<-|Hin].
    + rewrite Hrr. apply collect_lookup_stable; [apply lookup_insert_eq|].
      intros f' rr' Hf' Hid Hrr'.
      rewrite (Huniq f') in Hrr'; [congruence | by right | done].
    + apply IH; [done|done|]. intros f' Hf'. apply Huniq. by right.
Qed.

(** The ids of the accounts a list of futures was submitted for. *)
Definition ids (fs : list future) : list string :=
  (fun f => Id (fut_account f)) <$> fs.

Lemma elem_of_ids (f : future) (fs : list future) :
  f ∈ fs -> Id (fut_account f) ∈ ids fs.
Proof.
  intros Hf. apply list_elem_of_fmap. exists f. split; [reflexivity | exact Hf].
Qed.

Lemma ids_unique (fs : list future) (f f' : future) :
  NoDup (ids fs) -> f ∈ fs -> f' ∈ fs ->
  Id (fut_account f') = Id (fut_account f) -> f' = f.
Proof.
  induction fs as [|f0 fs IH]; intros Hnd Hf Hf' Hid.
  - by apply elem_of_nil in Hf.
  - unfold ids in Hnd. rewrite fmap_cons in Hnd.
    apply NoDup_cons in Hnd as [Hfresh Hnd].
    apply elem_of_cons in Hf as [->|Hf];
      apply elem_of_cons in Hf' as [->|Hf']; [done| | |by apply IH].
    + exfalso. apply Hfresh. rewrite <- Hid.
      apply list_elem_of_fmap. exists f'. split; [reflexivity | exact Hf'].
    + exfalso. apply Hfresh. rewrite Hid.
      apply list_elem_of_fmap. exists f. split; [reflexivity | exact Hf].
Qed.

Lemma submit_caught (self : ProcessAccountSet) (a : account) (s : session) :
  (forall r, r ∈ resolve_regions self a s ->
             caught (process_account_region self a r s)) ->
  fut_outcome (submit self a s)
  = Return (recorded self a s (resolve_regions self a s) ∅).
Proof.
  intros Hall. unfold submit, process_account. simpl.
  destruct (region_loop_caught self a s _ ∅
              [LogProcessing (type self) (Name a) (Id a)] Hall) as [lg ->].
  done.
Qed.

Lemma submit_uncaught (self : ProcessAccountSet) (a : account) (s : session)
  (r : string) (e : exn) :
  r ∈ resolve_regions self a s ->
  process_account_region self a r s = Raise e ->
  is_Exception e = false ->
  exists e', fut_outcome (submit self a s) = Raise e'.
Proof.
  intros Hr Hraise He. unfold submit, process_account. simpl.
  destruct (region_loop_uncaught self a s _ ∅
              [LogProcessing (type self) (Name a) (Id a)] r e Hr Hraise He)
    as (lg & e' & ->).
  by exists e'.
Qed.

(** ** The properties of one task *)

(** C2 (per-region completeness and isolation).  When every failure of the
    operation is one that [except Exception] catches, [process_account]
    returns a map with exactly the configured regions as keys: the regions
    of the list under [regions] in the filter's data when there is one, and
    the single region [us-east-1] when there is none.  Each region holds
    the value the operation returned there, or [False] when it raised
    there, whatever happened in the regions before it. *)
Theorem process_account_complete (self : ProcessAccountSet) (a : account)
  (s : session) :
  (forall r, r ∈ resolve_regions self a s ->
             caught (process_account_region self a r s)) ->
  exists (lg : list log_record) (rr : gmap string value),
    process_account self a s = (lg, Return rr)
    /\ dom rr = list_to_set (resolve_regions self a s)
    /\ (forall r, r ∈ resolve_regions self a s ->
          (forall v, process_account_region self a r s = Return v ->
                     rr !! r = Some v)
          /\ (forall e, process_account_region self a r s = Raise e ->
                        rr !! r = Some (VBool false)))
    /\ (data_regions self = None -> resolve_regions self a s = ["us-east-1"])
    /\ (data_regions self = None ->
        dom rr = {["us-east-1"]}
        /\ rr !! "us-east-1"
           = Some (unit_result (process_account_region self a "us-east-1" s)))
    /\ (forall rs, data_regions self = Some rs ->
          resolve_regions self a s = rs
          /\ dom rr = list_to_set rs
          /\ forall r, r ∈ rs ->
               rr !! r = Some (unit_result (process_account_region self a r s))).
Proof.
  intros Hall. unfold process_account.
  destruct (region_loop_caught self a s _ ∅
              [LogProcessing (type self) (Name a) (Id a)] Hall) as [lg Hrun].
  exists lg, (recorded self a s (resolve_regions self a s) ∅).
  split; [done|]. split; [|split; [|split; [|split]]].
  - rewrite recorded_dom, dom_empty_L. set_solver.
  - intros r Hr. rewrite recorded_lookup, decide_True by done.
    split; [intros v ->|intros e ->]; done.
  - intros Hnone. unfold resolve_regions. by rewrite Hnone.
  - intros Hnone.
    assert (resolve_regions self a s = ["us-east-1"]) as ->
      by (unfold resolve_regions; by rewrite Hnone).
    split.
    + rewrite recorded_dom, dom_empty_L. set_solver.
    + rewrite recorded_lookup, decide_True; [done | left].
  - intros rs Hsome.
    assert (resolve_regions self a s = rs) as ->
      by (unfold resolve_regions; by rewrite Hsome).
    split; [done|]. split.
    + rewrite recorded_dom, dom_empty_L. set_solver.
    + intros r Hr. by rewrite recorded_lookup, decide_True.
Qed.

End ProcessAccount.

Section ProcessAccountSet.

Context {session W : Type}.
Variable assumed_session :
  string -> string -> session -> string -> W -> outcome session * W.
Variable local_session : W -> outcome session * W.
Variable region_name : session -> string.
Variable ext : string -> string -> outcome string.

Abbreviation state := (Session.state (session := session) (W := W)).
Abbreviation M := (Session.M (session := session) (W := W)).
Abbreviation account_session :=
  (Session.account_session assumed_session region_name ext).
Abbreviation get_org_session :=
  (Session.get_org_session assumed_session local_session).
Abbreviation ProcessAccountSet := (@ProcessAccountSet session).

(** [as_completed(futures)] yields every future once, in an order the
    code does not control. *)
Variable as_completed : list future -> list future.
Hypothesis as_completed_perm : forall fs, as_completed fs ≡ₚ fs.

(** The first loop of [process_account_set], run in thread [tid]:
    [account_config] is [self.manager.account_config]. *)
Fixpoint submit_all (tid : nat) (self : ProcessAccountSet)
  (account_config : gmap string string) (org : session)
  (resources : list account) (futures : list future) : M (list future) :=
  match resources with
  | [] => ret futures
  | a :: rest =>
      fun st =>
        match account_config !! "org-account-role" with
        | None => (Raise (KeyError "org-account-role"), st)
        | Some role =>
            match account_session tid org a role st with
            | (Return s, st1) =>
                submit_all tid self account_config org rest
                           (futures ++ [submit self a s]) st1
            | (Raise e, st1) =>
                if is_ClientError e then
                  submit_all tid self account_config org rest futures
                    (add_log (LogAssumeError (type self) (Name a) (Id a) role)
                             st1)
                else (Raise e, st1)
            end
        end
  end.

(** The second loop of [process_account_set]. *)
Fixpoint gather (self : ProcessAccountSet) (completed : list future)
  (account_results : gmap string (gmap string value))
  : M (gmap string (gmap string value)) :=
  match completed with
  | [] => ret account_results
  | f :: rest =>
      let a := fut_account f in
      match fut_outcome f with
      | Raise e =>
          let* _ := update (add_log (LogAccountError (type self) (Name a)
                                                     (Id a) e)) in
          gather self rest account_results
      | Return region_results =>
          gather self rest (<[Id a := region_results]> account_results)
      end
  end.

(** [process_account_set(resources)], called in thread [tid] on a filter
    whose manager is [mgr]. *)
Definition process_account_set (tid : nat) (self : ProcessAccountSet)
  (env : environ) (mgr : manager) (account_config : gmap string string)
  (resources : list account) : M (gmap string (gmap string value)) :=
  let* org := get_org_session env mgr in
  let* futures := submit_all tid self account_config org resources [] in
  gather self (as_completed futures) ∅.

Definition add_logs (rs : list log_record) (st : state) : state :=
  State (world st) (calls st) (ACCOUNT_SESSION st) (org_session st)
        (log st ++ rs).

(** ** The second loop *)

Lemma add_logs_nil (st : state) : add_logs [] st = st.
Proof. destruct st. unfold add_logs. simpl. by rewrite app_nil_r. Qed.

Lemma add_logs_cons (r : log_record) (rs : list log_record) (st : state) :
  add_logs rs (add_log r st) = add_logs (r :: rs) st.
Proof. unfold add_logs, add_log. simpl. by rewrite <- app_assoc. Qed.

Lemma gather_collect (self : ProcessAccountSet) (completed : list future)
  (acc : gmap string (gmap string value)) (st : state) :
  gather self completed acc st
  = (Return (collect completed acc),
     add_logs (account_errors self completed) st).
Proof.
  revert acc st. induction completed as [|f fs IH]; intros acc st; simpl.
  - unfold ret. by rewrite add_logs_nil.
  - unfold collect, account_errors. simpl.
    destruct (fut_outcome f) as [rr|e]; simpl.
    + apply IH.
    + unfold bind, update. rewrite IH. by rewrite add_logs_cons.
Qed.

(** ** The first loop *)

Section loops.
Variables (tid : nat) (self : ProcessAccountSet)
  (account_config : gmap string string) (org : session) (role : string).
Hypothesis Hrole : account_config !! "org-account-role" = Some role.

Lemma submit_all_resolved (a : account) (rest : list account)
  (futs : list future) (s : session) (st st1 : state) :
  account_session tid org a role st = (Return s, st1) ->
  submit_all tid self account_config org (a :: rest) futs st
  = submit_all tid self account_config org rest
               (futs ++ [submit self a s]) st1.
Proof. intros Ha. simpl. by rewrite Hrole, Ha. Qed.

Lemma submit_all_denied (a : account) (rest : list account)
  (futs : list future) (e : exn) (st st1 : state) :
  account_session tid org a role st = (Raise e, st1) ->
  is_ClientError e = true ->
  submit_all tid self account_config org (a :: rest) futs st
  = submit_all tid self account_config org rest futs
      (add_log (LogAssumeError (type self) (Name a) (Id a) role) st1).
Proof. intros Ha He. simpl. by rewrite Hrole, Ha, He. Qed.

(** Any other exception of [account_session] ends the whole call. *)
Lemma submit_all_aborts (a : account) (rest : list account)
  (futs : list future) (e : exn) (st st1 : state) :
  account_session tid org a role st = (Raise e, st1) ->
  is_ClientError e = false ->
  submit_all tid self account_config org (a :: rest) futs st
  = (Raise e, st1).
Proof. intros Ha He. simpl. by rewrite Hrole, Ha, He. Qed.

Lemma submit_all_shift (l : list account) (futs : list future) (st : state) :
  submit_all tid self account_config org l futs st
  = match submit_all tid self account_config org l [] st with
    | (Return new, st') => (Return (futs ++ new), st')
    | (Raise e, st') => (Raise e, st')
    end.
Proof.
  revert futs st. induction l as [|a l IH]; intros futs st.
  - simpl. unfold ret. by rewrite app_nil_r.
  - destruct (account_session tid org a role st) as [[s|e] st1] eqn:Ha.
    + rewrite !(submit_all_resolved _ _ _ _ _ _ Ha).
      rewrite (IH (futs ++ _)), (IH ([] ++ _)).
      destruct (submit_all tid self account_config org l [] st1)
        as [[new|e] st']; [|done].
      by rewrite <- app_assoc.
    + destruct (is_ClientError e) eqn:He.
      * rewrite !(submit_all_denied _ _ _ _ _ _ Ha He). apply IH.
      * by rewrite !(submit_all_aborts _ _ _ _ _ _ Ha He).
Qed.

Lemma submit_all_app (l1 l2 : list account) (futs : list future)
  (st : state) :
  submit_all tid self account_config org (l1 ++ l2) futs st
  = match submit_all tid self account_config org l1 futs st with
    | (Return futs1, st1) =>
        submit_all tid self account_config org l2 futs1 st1
    | (Raise e, st1) => (Raise e, st1)
    end.
Proof.
  revert futs st. induction l1 as [|a l1 IH]; intros futs st; [done|].
  change ((a :: l1) ++ l2) with (a :: (l1 ++ l2)).
  destruct (account_session tid org a role st) as [[s|e] st1] eqn:Ha.
  - rewrite !(submit_all_resolved _ _ _ _ _ _ Ha). apply IH.
  - destruct (is_ClientError e) eqn:He.
    + rewrite !(submit_all_denied _ _ _ _ _ _ Ha He). apply IH.
    + by rewrite !(submit_all_aborts _ _ _ _ _ _ Ha He).
Qed.

(** The first loop only adds to the log. *)
Lemma submit_all_keeps_log (l : list account) (futs : list future)
  (r : outcome (list future)) (st st' : state) (x : log_record) :
  submit_all tid self account_config org l futs st = (r, st') ->
  x ∈ log st -> x ∈ log st'.
Proof.
  revert futs st. induction l as [|a l IH]; intros futs st Hrun Hx.
  - by injection Hrun as _ <-.
  - destruct (account_session tid org a role st) as [[s|e] st1] eqn:Ha;
      pose proof (account_session_keeps_log _ _ _ _ _ _ _ _ _ _ Ha) as Hlog.
    + rewrite (submit_all_resolved _ _ _ _ _ _ Ha) in Hrun.
      apply (IH _ _ Hrun). by rewrite Hlog.
    + destruct (is_ClientError e) eqn:He.
      * rewrite (submit_all_denied _ _ _ _ _ _ Ha He) in Hrun.
        apply (IH _ _ Hrun). simpl. rewrite Hlog.
        apply elem_of_app. by left.
      * rewrite (submit_all_aborts _ _ _ _ _ _ Ha He) in Hrun.
        injection Hrun as _ <-. by rewrite Hlog.
Qed.

(** The futures of a batch in which the account [a], between [pre] and
    [post], got its session. *)
Lemma submit_all_split_resolved (pre post : list account) (a : account)
  (s : session) (futs1 futs2 : list future) (st0 st1 st2 st3 : state) :
  submit_all tid self account_config org pre [] st0 = (Return futs1, st1) ->
  account_session tid org a role st1 = (Return s, st2) ->
  submit_all tid self account_config org post [] st2 = (Return futs2, st3) ->
  submit_all tid self account_config org (pre ++ a :: post) [] st0
  = (Return (futs1 ++ submit self a s :: futs2), st3).
Proof.
  intros Hpre Ha Hpost.
  rewrite submit_all_app, Hpre, (submit_all_resolved _ _ _ _ _ _ Ha).
  rewrite submit_all_shift, Hpost. by rewrite <- app_assoc.
Qed.

(** The futures of a batch in which the role of the account [a] could not
    be assumed. *)
Lemma submit_all_split_denied (pre post : list account) (a : account)
  (e : exn) (futs1 futs2 : list future) (st0 st1 st2 st3 : state) :
  submit_all tid self account_config org pre [] st0 = (Return futs1, st1) ->
  account_session tid org a role st1 = (Raise e, st2) ->
  is_ClientError e = true ->
  submit_all tid self account_config org post []
    (add_log (LogAssumeError (type self) (Name a) (Id a) role) st2)
  = (Return futs2, st3) ->
  submit_all tid self account_config org (pre ++ a :: post) [] st0
  = (Return (futs1 ++ futs2), st3).
Proof.
  intros Hpre Ha He Hpost.
  rewrite submit_all_app, Hpre, (submit_all_denied _ _ _ _ _ _ Ha He).
  by rewrite submit_all_shift, Hpost.
Qed.

(** The whole call, from the session of the organization and the futures
    of the first loop. *)
Lemma process_account_set_run (env : environ) (mgr : manager)
  (resources : list account) (futs : list future) (st st0 st1 : state) :
  get_org_session env mgr st = (Return org, st0) ->
  submit_all tid self account_config org resources [] st0
  = (Return futs, st1) ->
  process_account_set tid self env mgr account_config resources st
  = (Return (collect (as_completed futs) ∅),
     add_logs (account_errors self (as_completed futs)) st1).
Proof.
  intros Horg Hsub. unfold process_account_set, bind.
  rewrite Horg, Hsub. apply gather_collect.
Qed.

End loops.

Lemma as_completed_elem (f : future) (fs : list future) :
  f ∈ as_completed fs -> f ∈ fs.
Proof. by rewrite (as_completed_perm fs). Qed.

Lemma elem_as_completed (f : future) (fs : list future) :
  f ∈ fs -> f ∈ as_completed fs.
Proof. by rewrite (as_completed_perm fs). Qed.

(** ** The properties of the fan-out *)

(** C1 (failure isolation).  First part: in any batch, an account whose
    role cannot be assumed ([account_session] raises [ClientError]) and
    whose id no other submitted account shares has no key in the result,
    and the failure is logged.  Second part: an account whose session is
    resolved, whose id is its own and whose operation fails only in ways
    [except Exception] catches, has a key; its map holds [False] for every
    region where the operation raised and the returned value for every
    other region.  Third part: for the batch [[T1; T2]] with the regions
    [east] and [west], where the role of [T1] cannot be assumed and the
    operation on [T2] raises in [east] and returns [v] in [west], the
    result is exactly [{T2: {east: False, west: v}}], and [T1], when its id
    differs from that of [T2], has no key. *)
Theorem process_account_set_isolation (tid : nat) (self : ProcessAccountSet)
  (env : environ) (mgr : manager) (account_config : gmap string string)
  (org : session) (role : string) (st st0 : state) :
  get_org_session env mgr st = (Return org, st0) ->
  account_config !! "org-account-role" = Some role ->
  (forall (pre post : list account) (a : account) (code : string)
          (futs1 futs2 : list future) (st1 st2 st3 : state),
      submit_all tid self account_config org pre [] st0
      = (Return futs1, st1) ->
      account_session tid org a role st1 = (Raise (ClientError code), st2) ->
      submit_all tid self account_config org post []
        (add_log (LogAssumeError (type self) (Name a) (Id a) role) st2)
      = (Return futs2, st3) ->
      Id a ∉ ids (futs1 ++ futs2) ->
      exists results st',
        process_account_set tid self env mgr account_config
                            (pre ++ a :: post) st
        = (Return results, st')
        /\ results !! Id a = None
        /\ LogAssumeError (type self) (Name a) (Id a) role ∈ log st')
  /\ (forall (pre post : list account) (a : account) (s : session)
             (futs1 futs2 : list future) (st1 st2 st3 : state),
         submit_all tid self account_config org pre [] st0
         = (Return futs1, st1) ->
         account_session tid org a role st1 = (Return s, st2) ->
         submit_all tid self account_config org post [] st2
         = (Return futs2, st3) ->
         Id a ∉ ids (futs1 ++ futs2) ->
         (forall r, r ∈ resolve_regions self a s ->
                    caught (process_account_region self a r s)) ->
         exists results st' rr,
           process_account_set tid self env mgr account_config
                               (pre ++ a :: post) st
           = (Return results, st')
           /\ results !! Id a = Some rr
           /\ dom rr = list_to_set (resolve_regions self a s)
           /\ forall r, r ∈ resolve_regions self a s ->
                (forall e, process_account_region self a r s = Raise e ->
                           rr !! r = Some (VBool false))
                /\ (forall v, process_account_region self a r s = Return v ->
                              rr !! r = Some v))
  /\ (forall (T1 T2 : account) (code : string) (s : session) (e : exn)
             (v : value) (st1 st2 : state),
         data_regions self = Some ["east"; "west"] ->
         account_session tid org T1 role st0
         = (Raise (ClientError code), st1) ->
         account_session tid org T2 role
           (add_log (LogAssumeError (type self) (Name T1) (Id T1) role) st1)
         = (Return s, st2) ->
         process_account_region self T2 "east" s = Raise e ->
         is_Exception e = true ->
         process_account_region self T2 "west" s = Return v ->
         process_account_set tid self env mgr account_config [T1; T2] st
         = (Return {[Id T2 := {["east" := VBool false; "west" := v]}]}, st2)
         /\ (Id T1 ≠ Id T2 ->
             ({[Id T2 := {["east" := VBool false; "west" := v]}]}
              : gmap string (gmap string value)) !! Id T1 = None)).
Proof.
  intros Horg Hrole. split; [|split].
  - intros pre post a code futs1 futs2 st1 st2 st3 Hpre Ha Hpost Hfresh.
    pose proof (submit_all_split_denied tid self account_config org role
                  Hrole pre post a _ futs1 futs2 st0 st1 st2 st3 Hpre Ha
                  eq_refl Hpost) as Hsub.
    rewrite (process_account_set_run tid self account_config org env mgr
               _ _ st st0 st3 Horg Hsub).
    eexists _, _. split; [done|]. split.
    + rewrite collect_lookup_other; [done|].
      intros f rr Hf%as_completed_elem _ Hid. apply Hfresh.
      rewrite <- Hid. by apply elem_of_ids.
    + simpl. apply elem_of_app. left.
      apply (submit_all_keeps_log tid self account_config org role Hrole
               post [] _ _ st3 _ Hpost).
      simpl. apply elem_of_app. right. left.
  - intros pre post a s futs1 futs2 st1 st2 st3 Hpre Ha Hpost Hfresh Hall.
    pose proof (submit_all_split_resolved tid self account_config org role
                  Hrole pre post a s futs1 futs2 st0 st1 st2 st3 Hpre Ha
                  Hpost) as Hsub.
    rewrite (process_account_set_run tid self account_config org env mgr
               _ _ st st0 st3 Horg Hsub).
    eexists _, _, (recorded self a s (resolve_regions self a s) ∅).
    split; [done|]. split; [|split].
    + apply (collect_lookup_unique _ _ (submit self a s)).
      * apply elem_as_completed, elem_of_app. right. left.
      * by apply submit_caught.
      * intros f' Hf'%as_completed_elem Hid.
        apply elem_of_app in Hf' as [Hf'|Hf'];
          [|apply elem_of_cons in Hf' as [->|Hf']; [done|]];
          exfalso; apply Hfresh; simpl in Hid; rewrite <- Hid;
          apply elem_of_ids, elem_of_app; [by left | by right].
    + rewrite recorded_dom, dom_empty_L. set_solver.
    + intros r Hr. rewrite recorded_lookup, decide_True by done.
      split; [intros e0 ->|intros v ->]; done.
  - intros T1 T2 code s e v st1 st2 Hregions H1 H2 Heast He Hwest.
    assert (submit_all tid self account_config org [T1; T2] [] st0
            = (Return [submit self T2 s], st2)) as Hsub.
    { rewrite (submit_all_denied tid self account_config org role Hrole
                 _ _ _ _ _ _ H1 eq_refl).
      by rewrite (submit_all_resolved tid self account_config org role Hrole
                    _ _ _ _ _ _ H2). }
    rewrite (process_account_set_run tid self account_config org env mgr
               _ _ st st0 st2 Horg Hsub).
    assert (as_completed [submit self T2 s] = [submit self T2 s]) as ->
      by (apply Permutation_singleton_r, as_completed_perm).
    assert (fut_outcome (submit self T2 s)
            = Return {["east" := VBool false; "west" := v]}) as Hout.
    { unfold submit, process_account, resolve_regions. rewrite Hregions.
      simpl. rewrite Heast, He. simpl. rewrite Hwest. simpl.
      reflexivity. }
    split.
    + rewrite (collect_singleton _ _ Hout).
      rewrite (account_errors_singleton self _ _ Hout).
      by rewrite add_logs_nil.
    + intros Hne. by apply lookup_singleton_ne.
Qed.

(** C3 (task errors).  First part: a future that ended with an exception
    adds nothing to the result of the second loop, wherever it completes,
    and is logged.  Second part: in a batch, an account whose session was
    resolved but whose operation raises, in some region, an exception that
    [except Exception] does not catch, has no key in the result (its id
    being its own), while every other submitted account whose task
    returned, under an id of its own, has its map in the result.  Third
    part, for contrast: when the operation raises an exception that is
    caught, the task returns a map with [False] for that region, so the
    account is kept. *)
Theorem process_account_set_task_error (tid : nat)
  (self : ProcessAccountSet) (env : environ) (mgr : manager)
  (account_config : gmap string string) (org : session) (role : string)
  (st st0 : state) :
  get_org_session env mgr st = (Return org, st0) ->
  account_config !! "org-account-role" = Some role ->
  (forall (l1 l2 : list future) (f : future) (e : exn)
          (acc : gmap string (gmap string value)) (st' : state),
      fut_outcome f = Raise e ->
      (gather self (l1 ++ f :: l2) acc st').1
      = (gather self (l1 ++ l2) acc st').1
      /\ LogAccountError (type self) (Name (fut_account f))
                         (Id (fut_account f)) e
         ∈ log (gather self (l1 ++ f :: l2) acc st').2)
  /\ (forall (pre post : list account) (a : account) (s : session)
             (r : string) (e : exn) (futs1 futs2 : list future)
             (st1 st2 st3 : state),
         submit_all tid self account_config org pre [] st0
         = (Return futs1, st1) ->
         account_session tid org a role st1 = (Return s, st2) ->
         submit_all tid self account_config org post [] st2
         = (Return futs2, st3) ->
         r ∈ resolve_regions self a s ->
         process_account_region self a r s = Raise e ->
         is_Exception e = false ->
         Id a ∉ ids (futs1 ++ futs2) ->
         NoDup (ids (futs1 ++ futs2)) ->
         exists results st',
           process_account_set tid self env mgr account_config
                               (pre ++ a :: post) st
           = (Return results, st')
           /\ results !! Id a = None
           /\ forall f rr, f ∈ futs1 ++ futs2 ->
                fut_outcome f = Return rr ->
                results !! Id (fut_account f) = Some rr)
  /\ (forall (a : account) (s : session) (r : string) (e : exn),
         (forall r', r' ∈ resolve_regions self a s ->
                     caught (process_account_region self a r' s)) ->
         r ∈ resolve_regions self a s ->
         process_account_region self a r s = Raise e ->
         exists rr, fut_outcome (submit self a s) = Return rr
                    /\ rr !! r = Some (VBool false)).
Proof.
  intros Horg Hrole. split; [|split].
  - intros l1 l2 f e acc st' Hf. rewrite !gather_collect. simpl. split.
    + f_equal. rewrite !collect_app.
      change (collect (f :: l2) (collect l1 acc))
        with (collect l2 (match fut_outcome f with
                          | Return rr =>
                              <[Id (fut_account f) := rr]> (collect l1 acc)
                          | Raise _ => collect l1 acc
                          end)).
      by rewrite Hf.
    + apply elem_of_app. right. unfold account_errors.
      apply list_elem_of_omap. exists f.
      split; [apply elem_of_app; right; left | by rewrite Hf].
  - intros pre post a s r e futs1 futs2 st1 st2 st3 Hpre Ha Hpost Hr Hraise
      He Hfresh Hnd.
    pose proof (submit_all_split_resolved tid self account_config org role
                  Hrole pre post a s futs1 futs2 st0 st1 st2 st3 Hpre Ha
                  Hpost) as Hsub.
    rewrite (process_account_set_run tid self account_config org env mgr
               _ _ st st0 st3 Horg Hsub).
    destruct (submit_uncaught self a s r e Hr Hraise He) as [e' He'].
    eexists _, _. split; [done|]. split.
    + rewrite collect_lookup_other; [done|].
      intros f rr Hf%as_completed_elem Hrr Hid.
      apply elem_of_app in Hf as [Hf|Hf];
        [|apply elem_of_cons in Hf as [->|Hf]; [congruence|]];
        apply Hfresh; rewrite <- Hid;
        apply elem_of_ids, elem_of_app; [by left | by right].
    + intros f rr Hf Hrr. apply collect_lookup_unique; [|done|].
      * apply elem_as_completed.
        apply elem_of_app in Hf as [Hf|Hf]; apply elem_of_app;
          [by left | right; by right].
      * intros f' Hf'%as_completed_elem Hid.
        assert (f' ∈ futs1 ++ futs2 \/ f' = submit self a s) as [Hin | ->].
        { apply elem_of_app in Hf' as [Hf'|Hf'];
            [left; apply elem_of_app; by left|].
          apply elem_of_cons in Hf' as [->|Hf']; [by right|].
          left. apply elem_of_app. by right. }
        -- by apply (ids_unique (futs1 ++ futs2)).
        -- exfalso. apply Hfresh. simpl in Hid. rewrite Hid.
           by apply elem_of_ids.
  - intros a s r e Hall Hr Hraise.
    exists (recorded self a s (resolve_regions self a s) ∅).
    split; [by apply submit_caught|].
    by rewrite recorded_lookup, decide_True, Hraise.
Qed.

End ProcessAccountSet.

(** ** A sample batch *)

(** A filter over the regions [east] and [west] whose operation cannot
    reach [east], returns [True] in [west], and is interrupted in [west]
    for the account 333333333333. *)
Definition sample_filter : ProcessAccountSet (session := nat) :=
  {| type := "cfn-stack";
     data_regions := Some ["east"; "west"];
     process_account_region := fun a r _ =>
       if String.eqb r "east"
       then Raise (OtherException "EndpointConnectionError")
       else if String.eqb (Id a) "333333333333" then Raise SystemExit
       else Return (VBool true) |}.

Definition T1 : account := Account "111111111111" "suspended".
Definition T2 : account := Account "222222222222" "dev".
Definition T3 : account := Account "333333333333" "ops".

Definition sample_env : environ := Environ false None.
Definition sample_mgr : manager := Manager None None "us-east-1".

(** The sample batch: futures complete in the reverse of the order in
    which they were submitted. *)
Definition sample_process_account_set (resources : list account) :=
  process_account_set sample_assumed_session sample_local_session
    (fun _ => "us-east-1") sample_ext reverse 0 sample_filter sample_env
    sample_mgr (parse_query sample_env sample_mgr) resources.

Lemma sample_caught (a : account) (s : nat) (r : string) :
  Id a ≠ "333333333333" ->
  caught (process_account_region sample_filter a r s).
Proof.
  intros Ha. simpl. destruct (String.eqb r "east"); [done|].
  destruct (String.eqb_spec (Id a) "333333333333"); done.
Qed.

(** A filter with no [regions] in its data, whose operation returns
    [True]. *)
Definition plain_filter : ProcessAccountSet (session := nat) :=
  {| type := "cfn-stack";
     data_regions := None;
     process_account_region := fun _ _ _ => Return (VBool true) |}.

(** With the regions [east] and [west] configured the map has these two
    keys and no [us-east-1]; with none configured it has [us-east-1]
    alone. *)
Lemma process_account_complete_witness :
  (exists (lg : list log_record) (rr : gmap string value),
      process_account sample_filter T2 1 = (lg, Return rr)
      /\ dom rr = list_to_set ["east"; "west"]
      /\ rr !! "east" = Some (VBool false)
      /\ rr !! "west" = Some (VBool true)
      /\ rr !! "us-east-1" = None)
  /\ (exists (lg : list log_record) (rr : gmap string value),
         process_account plain_filter T2 1 = (lg, Return rr)
         /\ dom rr = {["us-east-1"]}
         /\ rr !! "us-east-1" = Some (VBool true)
         /\ rr !! "east" = None).
Proof.
  split.
  - destruct (process_account_complete sample_filter T2 1)
      as (lg & rr & Hrun & _ & _ & _ & _ & Hsome).
    { intros r _. by apply sample_caught. }
    destruct (Hsome ["east"; "west"] eq_refl) as (_ & Hdom & Hvals).
    exists lg, rr. split; [exact Hrun|]. split; [exact Hdom|].
    split; [exact (Hvals "east" ltac:(left))|].
    split; [exact (Hvals "west" ltac:(right; left))|].
    apply not_elem_of_dom. rewrite Hdom. set_solver.
  - destruct (process_account_complete plain_filter T2 1)
      as (lg & rr & Hrun & _ & _ & _ & Hnone & _).
    { intros r _. exact I. }
    destruct (Hnone eq_refl) as [Hdom Hval].
    exists lg, rr. split; [exact Hrun|]. split; [exact Hdom|].
    split; [exact Hval|].
    apply not_elem_of_dom. rewrite Hdom. set_solver.
Defined.

(** The states the sample batch goes through: after [get_org_session],
    after the refused call for [T1] and its log entry, and after the call
    for [T2]. *)
Definition st_org : state (session := nat) (W := nat) :=
  State 0 [CallLocal] ∅ (Some 0) [].

Definition st_T1 : state (session := nat) (W := nat) :=
  State 0
    [CallLocal;
     CallAssume "arn:aws:iam::111111111111:role/OrganizationAccountAccessRole"
                "CustodianOrgAccount" 0 "us-east-1"]
    ∅ (Some 0)
    [LogAssumeError "cfn-stack" "suspended" "111111111111"
                    "OrganizationAccountAccessRole"].

Lemma process_account_set_isolation_witness :
  (sample_process_account_set [T1; T2] initial_state).1
  = Return {["222222222222" := {["east" := VBool false; "west" := VBool true]}]}
  /\ ({["222222222222" := {["east" := VBool false; "west" := VBool true]}]}
      : gmap string (gmap string value)) !! "111111111111" = None
  /\ (exists results st',
         sample_process_account_set [T1; T2] initial_state
         = (Return results, st')
         /\ results !! "111111111111" = None
         /\ LogAssumeError "cfn-stack" "suspended" "111111111111"
                           "OrganizationAccountAccessRole" ∈ log st')
  /\ (exists results st' rr,
         sample_process_account_set [T1; T2] initial_state
         = (Return results, st')
         /\ results !! "222222222222" = Some rr
         /\ rr !! "east" = Some (VBool false)
         /\ rr !! "west" = Some (VBool true)).
Proof.
  pose proof (process_account_set_isolation sample_assumed_session
                sample_local_session (fun _ => "us-east-1") sample_ext
                reverse reverse_Permutation 0 sample_filter sample_env
                sample_mgr (parse_query sample_env sample_mgr) 0
                "OrganizationAccountAccessRole" initial_state st_org
                eq_refl eq_refl)
    as (Habsent & Hpresent & Hscenario).
  split; [|split; [|split]].
  - edestruct (Hscenario T1 T2) as [Hrun _];
      [reflexivity | vm_compute; reflexivity | vm_compute; reflexivity
       | reflexivity | reflexivity | reflexivity |].
    exact (f_equal fst Hrun).
  - edestruct (Hscenario T1 T2) as [_ Hnone];
      [reflexivity | vm_compute; reflexivity | vm_compute; reflexivity
       | reflexivity | reflexivity | reflexivity |].
    apply Hnone. discriminate.
  - edestruct (Habsent [] [T2] T1 "AccessDenied" [] [submit sample_filter T2 1])
      as (results & st' & Hrun & Hnone & Hlog);
      [reflexivity | vm_compute; reflexivity | vm_compute; reflexivity | |].
    + intros Hin. apply list_elem_of_fmap in Hin as (f & Hid & Hf).
      apply list_elem_of_singleton in Hf as ->. discriminate.
    + by exists results, st'.
  - edestruct (Hpresent [T1] [] T2 1 [] [] st_T1)
      as (results & st' & rr & Hrun & Hsome & _ & Hregions);
      [vm_compute; reflexivity | vm_compute; reflexivity | reflexivity | |
       |].
    + intros Hin. by apply elem_of_nil in Hin.
    + intros r _. by apply sample_caught.
    + exists results, st', rr. split; [exact Hrun|]. split; [exact Hsome|].
      split.
      * apply (proj1 (Hregions "east" ltac:(left))
                 (OtherException "EndpointConnectionError") eq_refl).
      * apply (proj2 (Hregions "west" ltac:(right; left))
                 (VBool true) eq_refl).
Defined.

Lemma process_account_set_task_error_witness :
  (exists results st',
      sample_process_account_set [T2; T3] initial_state = (Return results, st')
      /\ results !! "333333333333" = None
      /\ results !! "222222222222"
         = Some {["east" := VBool false; "west" := VBool true]})
  /\ (gather sample_filter
        [Future T3 [] (Raise SystemExit); submit sample_filter T2 1]
        ∅ st_org).1
     = (gather sample_filter [submit sample_filter T2 1] ∅ st_org).1
  /\ (exists rr, fut_outcome (submit sample_filter T2 1) = Return rr
                 /\ rr !! "east" = Some (VBool false)).
Proof.
  pose proof (process_account_set_task_error sample_assumed_session
                sample_local_session (fun _ => "us-east-1") sample_ext
                reverse reverse_Permutation 0 sample_filter sample_env
                sample_mgr (parse_query sample_env sample_mgr) 0
                "OrganizationAccountAccessRole" initial_state st_org
                eq_refl eq_refl)
    as (Hskip & Hdrop & Hkept).
  split; [|split].
  - edestruct (Hdrop [T2] [] T3 2 "west" SystemExit
                 [submit sample_filter T2 1])
      as (results & st' & Hrun & Hnone & Hothers);
      [vm_compute; reflexivity | vm_compute; reflexivity | reflexivity
       | right; left | reflexivity | reflexivity | | |].
    + intros Hin. apply list_elem_of_fmap in Hin as (f & Hid & Hf).
      apply list_elem_of_singleton in Hf as ->. discriminate.
    + repeat constructor. intros Hin. by apply elem_of_nil in Hin.
    + exists results, st'. split; [exact Hrun|]. split; [exact Hnone|].
      apply (Hothers (submit sample_filter T2 1)); [left | reflexivity].
  - exact (proj1 (Hskip [] [submit sample_filter T2 1]
                    (Future T3 [] (Raise SystemExit)) SystemExit ∅ st_org
                    eq_refl)).
  - apply (Hkept T2 1 "east" (OtherException "EndpointConnectionError")).
    + intros r _. by apply sample_caught.
    + left.
    + reflexivity.
Defined.

(** ** Remarks *)

(** With the method of the base class every region is marked [False]:
    [NotImplementedError] is caught like any other failure. *)
Lemma base_class_marks_regions (t : string) (regions : list string)
  (a : account) (s : nat) (r : string) :
  r ∈ regions ->
  exists lg rr,
    process_account (base_class t (Some regions)) a s = (lg, Return rr)
    /\ rr !! r = Some (VBool false).
Proof.
  intros Hr. unfold process_account.
  destruct (region_loop_caught (base_class t (Some regions)) a s regions ∅
              [LogProcessing t (Name a) (Id a)]) as [lg Hrun].
  { intros r' _. reflexivity. }
  exists lg, (recorded (base_class t (Some regions)) a s regions ∅).
  split; [exact Hrun|]. by rewrite recorded_lookup, decide_True.
Qed.

(** A failure of [account_session] other than [ClientError] is not handled:
    a role template with an unknown field ends the whole call on the first
    account. *)
Lemma process_account_set_bad_template :
  (process_account_set sample_assumed_session sample_local_session
     (fun _ => "us-east-1") sample_ext reverse 0 sample_filter sample_env
     sample_mgr {["org-account-role" := "arn:aws:iam::{account}:role/X"]}
     [T2; T3] initial_state).1
  = Raise (KeyError "account").
Proof. reflexivity. Qed.

End Batch.

(** * More on the organizational-unit tree *)

Module HierarchyFacts.
Import Hierarchy.









(** ** When the walk returns *)

Lemma lookup_le_list_sum (ks : list nat) (i k : nat) :
  ks !! i = Some k -> k <= list_sum ks.
Proof.
  revert i. induction ks as [|k0 ks IH]; intros [|i] Hi; simplify_eq/=.
  - lia.
  - specialize (IH _ Hi). lia.
Qed.

Lemma weight_Acc (c : client) (k : nat) :
  forall r, weight c r k -> Acc (child_of c) r.
Proof.
  induction k as [k IH] using lt_wf_ind. intros r Hw.
  destruct Hw as [r ks Hkids]. constructor. intros x Hx.
  apply list_elem_of_lookup in Hx as [i Hi].
  destruct (Forall2_lookup_l _ _ _ _ _ Hkids Hi) as (kx & Hkx & Hwx).
  apply (IH kx); [|done].
  apply lookup_le_list_sum in Hkx. lia.
Qed.

(** A walk that returns has visited a frontier of finite weight. *)
Lemma expand_weights (c : client) (n : nat) :
  forall (fr : list string) (fo fo' : gset string),
    expand n c fr fo = Some fo' ->
    exists ks, Forall2 (weight c) fr ks /\ list_sum ks < n.
Proof.
  induction n as [|n IH]; intros fr fo fo' Hrun; [done|].
  simpl in Hrun. destruct fr as [|r rest].
  - exists []. split; [constructor | simpl; lia].
  - destruct (IH _ _ _ Hrun) as (ks & Hks & Hsum).
    apply Forall2_app_inv_l in Hks as (ks1 & ks2 & Hrest & Hkids & ->).
    exists (S (list_sum ks2) :: ks1). split.
    + constructor; [by constructor | done].
    + rewrite list_sum_app in Hsum. simpl. lia.
Qed.

Lemma Acc_descendant (c : client) (r x : string) :
  Acc (child_of c) r -> rtc (parent_of c) r x -> Acc (child_of c) x.
Proof.
  intros Hacc Hreach. induction Hreach as [|r y x Hedge _ IH]; [done|].
  apply IH. by apply (Acc_inv Hacc).
Qed.

Lemma Acc_no_cycle (c : client) (x : string) :
  Acc (child_of c) x -> ~ tc (parent_of c) x x.
Proof.
  induction 1 as [x _ IH]. intros Hcycle.
  inversion Hcycle as [? ? Hedge|? z ? Hedge Hback]; subst.
  - by apply (IH x Hedge).
  - apply (IH z Hedge). by eapply tc_r.
Qed.

Lemma get_ous_for_roots_returns_Acc (c : client) (l : loc) (h : store)
  (fuel : nat) :
  is_Some (get_ous_for_roots fuel c l h) ->
  forall r, r ∈ h !!! l -> Acc (child_of c) r.
Proof.
  rewrite get_ous_for_roots_expand. intros [res Hres] r Hr.
  destruct (expand fuel c (h !!! l) _) as [fo|] eqn:Hrun; [|done].
  destruct (expand_weights c _ _ _ _ Hrun) as (ks & Hks & _).
  apply list_elem_of_lookup in Hr as [i Hi].
  destruct (Forall2_lookup_l _ _ _ _ _ Hks Hi) as (k & _ & Hk).
  by apply (weight_Acc c k).
Qed.

(** X3.  [get_ous_for_roots] returns, for some budget, exactly when the
    tree is well founded below every unit of the list it is given: there
    is no visited set to stop a walk that comes back to a unit. *)
Theorem get_ous_for_roots_returns_iff (c : client) (l : loc) (h : store) :
  (exists fuel, is_Some (get_ous_for_roots fuel c l h))
  <-> forall r, r ∈ h !!! l -> Acc (child_of c) r.
Proof.
  split.
  - intros [fuel Hsome]. by apply (get_ous_for_roots_returns_Acc c l h fuel).
  - intros Hacc.
    destruct (get_ous_for_roots_Acc c l h Hacc) as (n & fo & h' & Hrun & _).
    exists n. rewrite (Hrun n); [by eexists | lia].
Qed.

(** X4.  When a unit reachable from the given list lies on a cycle of
    group-typed children, the loop never empties its list: no budget makes
    the call return. *)
Theorem get_ous_for_roots_cycle (c : client) (l : loc) (h : store)
  (r x : string) :
  r ∈ h !!! l ->
  rtc (parent_of c) r x ->
  tc (parent_of c) x x ->
  forall fuel, get_ous_for_roots fuel c l h = None.
Proof.
  intros Hr Hreach Hcycle fuel.
  destruct (get_ous_for_roots fuel c l h) as [res|] eqn:Hrun; [|done].
  exfalso. apply (Acc_no_cycle c x); [|done].
  apply (Acc_descendant c r); [|done].
  apply (get_ous_for_roots_returns_Acc c l h fuel); [by rewrite Hrun|done].
Qed.

(** A tree in which the cycle lies below the root: [P] has the child [Q],
    and [Q] and [S] list each other. *)
Definition cyclic_client : client := fun p t =>
  match t with
  | ORGANIZATIONAL_UNIT =>
      if String.eqb p "P" then [Page (Some ["Q"])]
      else if String.eqb p "Q" then [Page (Some ["S"])]
      else if String.eqb p "S" then [Page (Some ["Q"])]
      else []
  | ACCOUNT => []
  end.

Lemma cyclic_edge_PQ : parent_of cyclic_client "P" "Q".
Proof. unfold parent_of. vm_compute. left. Qed.

Lemma cyclic_edge_QS : parent_of cyclic_client "Q" "S".
Proof. unfold parent_of. vm_compute. left. Qed.

Lemma cyclic_edge_SQ : parent_of cyclic_client "S" "Q".
Proof. unfold parent_of. vm_compute. left. Qed.

Lemma get_ous_for_roots_cycle_witness :
  get_ous_for_roots 10 cyclic_client 0 {[0 := ["P"]]} = None
  /\ get_ous_for_roots 1000 cyclic_client 0 {[0 := ["P"]]} = None.
Proof.
  assert (forall fuel,
             get_ous_for_roots fuel cyclic_client 0 {[0 := ["P"]]} = None)
    as Hnever.
  { apply (get_ous_for_roots_cycle cyclic_client 0 {[0 := ["P"]]} "P" "Q").
    - vm_compute. left.
    - apply rtc_once, cyclic_edge_PQ.
    - eapply tc_l; [apply cyclic_edge_QS|]. apply tc_once, cyclic_edge_SQ. }
  split; apply Hnever.
Defined.

(** ** Pages *)





End HierarchyFacts.

(** * More on the configuration and the sessions *)

Module SessionFacts.
Import Py Role Session.

(** ** The query of the manager *)

Lemma query_params_snoc (qs : list (gmap string string))
  (q : gmap string string) (mode : option (gmap string string))
  (region : string) :
  query_params (Manager (Some (qs ++ [q])) mode region)
  = q ∪ query_params (Manager (Some qs) mode region).
Proof. unfold query_params. simpl. by rewrite foldl_app. Qed.

(** X6.  [parse_access_role] reads the last entry of the query that has
    the key [org-access-role]: a later entry with the key replaces what the
    entries before it gave, an entry without it changes nothing. *)
Theorem parse_access_role_last (qs : list (gmap string string))
  (q : gmap string string) (mode : option (gmap string string))
  (region : string) :
  parse_access_role (Manager (Some (qs ++ [q])) mode region)
  = match q !! "org-access-role" with
    | Some v => Some v
    | None => parse_access_role (Manager (Some qs) mode region)
    end.
Proof.
  unfold parse_access_role. rewrite query_params_snoc, lookup_union.
  by destruct (q !! "org-access-role"),
       (query_params (Manager (Some qs) mode region) !! "org-access-role").
Qed.

(** The role [parse_query] falls back to. *)
Definition default_account_role (env : environ) : string :=
  if opt_truthy (AWS_CONTROL_TOWER_ORG env)
  then "AWSControlTowerExecution"
  else "OrganizationAccountAccessRole".

Lemma account_config_lookup (self : manager) (k : string) :
  filter (fun kv : string * string =>
            kv.1 = "org-access-role" \/ kv.1 = "org-account-role")
         (query_params self) !! k
  = if decide (k = "org-access-role" \/ k = "org-account-role")
    then query_params self !! k else None.
Proof.
  destruct (decide (k = "org-access-role" \/ k = "org-account-role"))
    as [Hk|Hk].
  - destruct (query_params self !! k) as [v|] eqn:Hv.
    + by apply map_lookup_filter_Some.
    + apply map_lookup_filter_None. by left.
  - apply map_lookup_filter_None. right. intros v _. exact Hk.
Qed.

Lemma parse_query_lookup (env : environ) (self : manager) (k : string) :
  parse_query env self !! k
  = if decide (k = "org-account-role")
    then Some (default (default_account_role env)
                       (query_params self !! "org-account-role"))
    else if decide (k = "org-access-role")
         then query_params self !! "org-access-role"
         else None.
Proof.
  unfold parse_query. cbv zeta.
  rewrite (account_config_lookup self "org-account-role").
  rewrite decide_True by (by right).
  destruct (query_params self !! "org-account-role") as [role|] eqn:Hrole.
  - rewrite account_config_lookup.
    destruct (decide (k = "org-account-role")) as [->|Hne].
    + rewrite decide_True by (by right). by rewrite Hrole.
    + destruct (decide (k = "org-access-role")) as [->|Hne'].
      * by rewrite decide_True by (by left).
      * rewrite decide_False; [done | by intros [?|?]].
  - destruct (decide (k = "org-account-role")) as [->|Hne].
    + by rewrite lookup_insert_eq.
    + rewrite lookup_insert_ne by done. rewrite account_config_lookup.
      destruct (decide (k = "org-access-role")) as [->|Hne'].
      * by rewrite decide_True by (by left).
      * rewrite decide_False; [done | by intros [?|?]].
Qed.

(** X7.  The [account_config] that [OrgAccount.parse_query] leaves always
    has the key [org-account-role]: the value the query gives for it, even
    an empty one, and otherwise [OrganizationAccountAccessRole], or
    [AWSControlTowerExecution] when the environment variable
    [AWS_CONTROL_TOWER_ORG] is set to a non-empty string.  Its
    [org-access-role] is the one [parse_access_role] reports, and it has no
    other key, whatever the query holds. *)
Theorem parse_query_spec (env : environ) (self : manager) :
  parse_query env self !! "org-account-role"
  = Some (match query_params self !! "org-account-role" with
          | Some role => role
          | None =>
              match AWS_CONTROL_TOWER_ORG env with
              | Some (String _ _) => "AWSControlTowerExecution"
              | _ => "OrganizationAccountAccessRole"
              end
          end)
  /\ parse_query env self !! "org-access-role" = parse_access_role self
  /\ forall k, k <> "org-account-role" -> k <> "org-access-role" ->
               parse_query env self !! k = None.
Proof.
  split; [|split].
  - rewrite parse_query_lookup, decide_True by done.
    destruct (query_params self !! "org-account-role"); [done|].
    unfold default_account_role. simpl.
    by destruct (AWS_CONTROL_TOWER_ORG env) as [[|c s]|].
  - rewrite parse_query_lookup. rewrite decide_False by done.
    by rewrite decide_True by done.
  - intros k Hk1 Hk2. rewrite parse_query_lookup.
    by rewrite !decide_False by done.
Qed.

Section Credentials.

Context {session W : Type}.
Variable assumed_session :
  string -> string -> session -> string -> W -> outcome session * W.
Variable local_session : W -> outcome session * W.
Variable region_name : session -> string.
Variable ext : string -> string -> outcome string.

Abbreviation state := (Session.state (session := session) (W := W)).
Abbreviation account_session :=
  (Session.account_session assumed_session region_name ext).
Abbreviation get_org_session :=
  (Session.get_org_session assumed_session local_session).

(** ** The calls of [account_session] to the provider *)

Lemma account_session_bad_role (tid : nat) (org : session) (a : account)
  (role : string) (e : exn) (st : state) :
  resolve_role ext role (Id a) = Raise e ->
  account_session tid org a role st = (Raise e, st).
Proof.
  intros Hk. unfold Session.account_session, bind, lift. by rewrite Hk.
Qed.

(** X8.  A call of [account_session] either leaves the state as it is (the
    role is in the caller's cache, or the role template cannot be
    formatted), or asks the provider exactly once: for the resolved role,
    under the session name [CustodianOrgAccount], from the organization
    session it was given and in that session's region; it then ends as the
    provider's call ended. *)
Theorem account_session_provider_call (tid : nat) (org : session)
  (a : account) (role : string) (r : outcome session) (st st' : state) :
  account_session tid org a role st = (r, st') ->
  st' = st
  \/ exists k,
       resolve_role ext role (Id a) = Return k
       /\ org_accounts_of tid st !! k = None
       /\ calls st'
          = calls st
            ++ [CallAssume k "CustodianOrgAccount" org (region_name org)]
       /\ (r, world st')
          = assumed_session k "CustodianOrgAccount" org (region_name org)
                            (world st).
Proof.
  intros Hrun. destruct (resolve_role ext role (Id a)) as [k|e] eqn:Hk.
  - destruct (org_accounts_of tid st !! k) as [s0|] eqn:Hs.
    + rewrite (account_session_hit _ _ _ _ _ _ _ _ _ _ Hk Hs) in Hrun.
      left. by injection Hrun as _ <-.
    + rewrite (account_session_miss _ _ _ _ _ _ _ _ _ Hk Hs) in Hrun.
      right. exists k. split; [done|]. split; [done|].
      destruct (assumed_session k _ org _ (world st)) as [[s1|e] w];
        by injection Hrun as <- <-.
  - rewrite (account_session_bad_role _ _ _ _ _ _ Hk) in Hrun.
    left. by injection Hrun as _ <-.
Qed.

(** X9.  A call of [account_session] that raises stores nothing: every
    thread's cache is as before, and the role it resolved, if any, is still
    missing from the caller's cache, so the next call for it asks the
    provider again. *)
Theorem account_session_failure (tid : nat) (org : session) (a : account)
  (role : string) (e : exn) (st st' : state) :
  account_session tid org a role st = (Raise e, st') ->
  ACCOUNT_SESSION st' = ACCOUNT_SESSION st
  /\ org_session st' = org_session st
  /\ log st' = log st
  /\ forall k, resolve_role ext role (Id a) = Return k ->
               org_accounts_of tid st' !! k = None.
Proof.
  intros Hrun. destruct (resolve_role ext role (Id a)) as [k|e0] eqn:Hk.
  - destruct (org_accounts_of tid st !! k) as [s0|] eqn:Hs.
    + by rewrite (account_session_hit _ _ _ _ _ _ _ _ _ _ Hk Hs) in Hrun.
    + rewrite (account_session_miss _ _ _ _ _ _ _ _ _ Hk Hs) in Hrun.
      destruct (assumed_session k _ org _ (world st)) as [[s1|e1] w];
        [done|].
      injection Hrun as _ <-. repeat split.
      intros k' [= <-]. exact Hs.
  - rewrite (account_session_bad_role _ _ _ _ _ _ Hk) in Hrun.
    injection Hrun as _ <-. repeat split. intros k' Hk'. done.
Qed.

(** X10.  The cache is per thread and per role: a call of [account_session]
    in one thread changes no other thread's cache, so a handle cached by
    one thread is never found by another, and in the caller's cache it
    touches no entry but that of the role it resolved. *)
Theorem account_session_frame (tid : nat) (org : session) (a : account)
  (role : string) (r : outcome session) (st st' : state) :
  account_session tid org a role st = (r, st') ->
  (forall tid', tid' <> tid ->
                ACCOUNT_SESSION st' !! tid' = ACCOUNT_SESSION st !! tid')
  /\ (forall k, resolve_role ext role (Id a) <> Return k ->
                org_accounts_of tid st' !! k = org_accounts_of tid st !! k).
Proof.
  intros Hrun. destruct (resolve_role ext role (Id a)) as [k|e] eqn:Hk.
  - destruct (org_accounts_of tid st !! k) as [s0|] eqn:Hs.
    + rewrite (account_session_hit _ _ _ _ _ _ _ _ _ _ Hk Hs) in Hrun.
      by injection Hrun as _ <-.
    + rewrite (account_session_miss _ _ _ _ _ _ _ _ _ Hk Hs) in Hrun.
      destruct (assumed_session k _ org _ (world st)) as [[s1|e1] w];
        injection Hrun as _ <-; [|done].
      split.
      * intros tid' Hne. simpl. by rewrite lookup_insert_ne.
      * intros k' Hne. unfold org_accounts_of at 1. simpl.
        rewrite lookup_insert_eq. simpl.
        rewrite lookup_insert_ne; [done | congruence].
  - rewrite (account_session_bad_role _ _ _ _ _ _ Hk) in Hrun.
    by injection Hrun as _ <-.
Qed.

(** ** Failures of [get_org_session] *)

(** X11.  A call of [get_org_session] that raises memoizes nothing: the
    manager had no organization session and still has none, so the next
    call starts over with [local_session]; the caches of [account_session]
    and the log are left alone. *)
Theorem get_org_session_failure (env : environ) (self : manager) (e : exn)
  (st st' : state) :
  get_org_session env self st = (Raise e, st') ->
  org_session st = None
  /\ org_session st' = None
  /\ ACCOUNT_SESSION st' = ACCOUNT_SESSION st
  /\ log st' = log st
  /\ exists more, calls st' = calls st ++ CallLocal :: more.
Proof.
  unfold Session.get_org_session, bind, call_local_session,
    call_assumed_session, update, ret.
  destruct (org_session st) as [s0|] eqn:Hs0; [done|].
  destruct (_ && _); destruct (local_session (world st)) as [[l|e0] w];
    simpl; try done.
  - destruct (assumed_session _ _ l _ w) as [[s1|e1] w']; simpl; [done|].
    intros [= _ <-]. simpl. repeat split; [done|].
    eexists [_]. by rewrite <- app_assoc.
  - intros [= _ <-]. simpl. repeat split; [done|]. by exists [].
  - intros [= _ <-]. simpl. repeat split; [done|]. by exists [].
Qed.

End Credentials.

(** ** Samples *)

Lemma account_session_provider_call_witness :
  let run :=
    sample_account_session 7 0 (Account "222222222222" "dev")
                           "OrganizationAccountAccessRole" initial_state in
  run.2 = initial_state
  \/ exists k,
       resolve_role sample_ext "OrganizationAccountAccessRole" "222222222222"
       = Return k
       /\ org_accounts_of 7 initial_state !! k = None
       /\ calls run.2
          = calls initial_state ++ [CallAssume k "CustodianOrgAccount" 0 "us-east-1"]
       /\ (run.1, world run.2)
          = sample_assumed_session k "CustodianOrgAccount" 0 "us-east-1"
                                   (world initial_state).
Proof.
  intros run.
  exact (account_session_provider_call sample_assumed_session
           (fun _ => "us-east-1") sample_ext 7 0
           (Account "222222222222" "dev") "OrganizationAccountAccessRole"
           run.1 initial_state run.2 eq_refl).
Defined.

Lemma account_session_failure_witness :
  let run :=
    sample_account_session 7 0 (Account "111111111111" "suspended")
                           "OrganizationAccountAccessRole" initial_state in
  run.1 = Raise (ClientError "AccessDenied")
  /\ ACCOUNT_SESSION run.2 = ACCOUNT_SESSION initial_state
  /\ org_session run.2 = org_session initial_state
  /\ log run.2 = log initial_state
  /\ forall k,
       resolve_role sample_ext "OrganizationAccountAccessRole" "111111111111"
       = Return k ->
       org_accounts_of 7 run.2 !! k = None.
Proof.
  intros run. split; [reflexivity|].
  exact (account_session_failure sample_assumed_session
           (fun _ => "us-east-1") sample_ext 7 0
           (Account "111111111111" "suspended")
           "OrganizationAccountAccessRole" (ClientError "AccessDenied")
           initial_state run.2 eq_refl).
Defined.

Lemma account_session_frame_witness :
  let run :=
    sample_account_session 7 0 (Account "222222222222" "dev")
                           "OrganizationAccountAccessRole" initial_state in
  (forall tid', tid' <> 7 ->
                ACCOUNT_SESSION run.2 !! tid'
                = ACCOUNT_SESSION initial_state !! tid')
  /\ (forall k,
        resolve_role sample_ext "OrganizationAccountAccessRole" "222222222222"
        <> Return k ->
        org_accounts_of 7 run.2 !! k = org_accounts_of 7 initial_state !! k).
Proof.
  intros run.
  exact (account_session_frame sample_assumed_session
           (fun _ => "us-east-1") sample_ext 7 0
           (Account "222222222222" "dev") "OrganizationAccountAccessRole"
           run.1 initial_state run.2 eq_refl).
Defined.

(** A manager whose org-access-role the sample provider refuses. *)
Definition refused_manager : manager :=
  Manager (Some [{["org-access-role" := "arn:aws:iam::111111111111:role/Org"]}])
          None "us-west-2".

Lemma get_org_session_failure_witness :
  let run :=
    sample_get_org_session (Environ false None) refused_manager
                           initial_state in
  run.1 = Raise (ClientError "AccessDenied")
  /\ org_session initial_state = None
  /\ org_session run.2 = None
  /\ ACCOUNT_SESSION run.2 = ACCOUNT_SESSION initial_state
  /\ log run.2 = log initial_state
  /\ exists more, calls run.2 = calls initial_state ++ CallLocal :: more.
Proof.
  intros run. split; [reflexivity|].
  exact (get_org_session_failure sample_assumed_session sample_local_session
           (Environ false None) refused_manager (ClientError "AccessDenied")
           initial_state run.2 eq_refl).
Defined.

End SessionFacts.

(** * More on the fan-out *)

Module BatchFacts.
Import Py Role Session Batch.

Section ProcessAccount.

Context {session : Type}.
Abbreviation ProcessAccountSet := (@ProcessAccountSet session).

(** ** What a task logs *)

(** The entries the loop of [process_account] writes: one for each region
    where the operation raised. *)
Definition region_errors (self : ProcessAccountSet) (a : account)
  (s : session) (rs : list string) : list log_record :=
  omap (fun r =>
          match process_account_region self a r s with
          | Raise e => Some (LogRegionError (type self) (Name a) (Id a) r e)
          | Return _ => None
          end) rs.

Lemma region_loop_log (self : ProcessAccountSet) (a : account) (s : session)
  (rs : list string) (acc : gmap string value) (lg : list log_record) :
  (forall r, r ∈ rs -> caught (process_account_region self a r s)) ->
  (region_loop self a s rs acc lg).1 = lg ++ region_errors self a s rs.
Proof.
  revert acc lg. induction rs as [|r0 rs IH]; intros acc lg Hall.
  - simpl. by rewrite app_nil_r.
  - assert (caught (process_account_region self a r0 s)) as H0
      by (apply Hall; left).
    assert (forall r, r ∈ rs -> caught (process_account_region self a r s))
      as Hrest by (intros r Hr; apply Hall; by right).
    unfold region_errors. simpl.
    destruct (process_account_region self a r0 s) as [v|e]; simpl in *.
    + by apply IH.
    + rewrite H0, IH by done. by rewrite <- app_assoc.
Qed.

(** X12.  A task whose operation fails only in ways [except Exception]
    catches logs first that it processes the account, with the type of the
    filter and the name and id of the account, and then one error for each
    region where the operation raised, in the order of the regions, with
    the region and the exception; it logs nothing for a region where the
    operation returned. *)
Theorem process_account_log (self : ProcessAccountSet) (a : account)
  (s : session) :
  (forall r, r ∈ resolve_regions self a s ->
             caught (process_account_region self a r s)) ->
  (process_account self a s).1
  = LogProcessing (type self) (Name a) (Id a)
    :: region_errors self a s (resolve_regions self a s).
Proof.
  intros Hall. unfold process_account. by rewrite region_loop_log.
Qed.

(** ** The values a task records *)

Lemma region_loop_values (self : ProcessAccountSet) (a : account)
  (s : session) (rs : list string) (acc rr : gmap string value)
  (lg : list log_record) :
  (region_loop self a s rs acc lg).2 = Return rr ->
  forall r v, rr !! r = Some v ->
    acc !! r = Some v
    \/ (r ∈ rs /\ (process_account_region self a r s = Return v
                   \/ v = VBool false)).
Proof.
  revert acc lg. induction rs as [|r0 rs IH]; intros acc lg Hrun r v Hv.
  - simpl in Hrun. injection Hrun as <-. by left.
  - simpl in Hrun.
    destruct (process_account_region self a r0 s) as [v0|e] eqn:H0.
    + destruct (IH _ _ Hrun r v Hv) as [Hacc|[Hin Hval]].
      * destruct (decide (r = r0)) as [->|Hne].
        -- rewrite lookup_insert_eq in Hacc. injection Hacc as ->.
           right. split; [left | by left].
        -- rewrite lookup_insert_ne in Hacc by done. by left.
      * right. split; [by right | done].
    + destruct (is_Exception e); [|done].
      destruct (IH _ _ Hrun r v Hv) as [Hacc|[Hin Hval]].
      * destruct (decide (r = r0)) as [->|Hne].
        -- rewrite lookup_insert_eq in Hacc. injection Hacc as <-.
           right. split; [left | by right].
        -- rewrite lookup_insert_ne in Hacc by done. by left.
      * right. split; [by right | done].
Qed.

(** Whatever a task returns holds, for configured regions only, values the
    operation returned there, or [False]. *)
Lemma process_account_values (self : ProcessAccountSet) (a : account)
  (s : session) (rr : gmap string value) (r : string) (v : value) :
  (process_account self a s).2 = Return rr ->
  rr !! r = Some v ->
  r ∈ resolve_regions self a s
  /\ (process_account_region self a r s = Return v \/ v = VBool false).
Proof.
  intros Hrun Hv.
  destruct (region_loop_values _ _ _ _ _ _ _ Hrun r v Hv) as [Hacc|H];
    [by rewrite lookup_empty in Hacc | done].
Qed.

(** A task that returns has survived every region. *)
Lemma region_loop_returns (self : ProcessAccountSet) (a : account)
  (s : session) (rs : list string) (acc rr : gmap string value)
  (lg : list log_record) :
  (region_loop self a s rs acc lg).2 = Return rr ->
  rr = recorded self a s rs acc.
Proof.
  revert acc lg. induction rs as [|r0 rs IH]; intros acc lg Hrun.
  - simpl in Hrun. by injection Hrun as <-.
  - simpl in Hrun.
    change (recorded self a s (r0 :: rs) acc)
      with (recorded self a s rs
              (<[r0 := unit_result (process_account_region self a r0 s)]> acc)).
    destruct (process_account_region self a r0 s) as [v0|e].
    + by apply (IH _ _ Hrun).
    + destruct (is_Exception e); [|done]. by apply (IH _ _ Hrun).
Qed.

Lemma process_account_returns (self : ProcessAccountSet) (a : account)
  (s : session) (rr : gmap string value) (r : string) :
  (process_account self a s).2 = Return rr ->
  r ∈ resolve_regions self a s ->
  rr !! r = Some (unit_result (process_account_region self a r s)).
Proof.
  intros Hrun Hr. rewrite (region_loop_returns _ _ _ _ _ _ _ Hrun).
  by rewrite recorded_lookup, decide_True.
Qed.

(** ** A returned [False] and a caught failure *)

(** The filter whose operation returns [False] where that of [self] raises
    an exception that [except Exception] catches. *)
Definition quiet (self : ProcessAccountSet) : ProcessAccountSet :=
  {| type := type self;
     data_regions := data_regions self;
     process_account_region := fun a r s =>
       match process_account_region self a r s with
       | Return v => Return v
       | Raise e => if is_Exception e then Return (VBool false) else Raise e
       end |}.

Lemma region_loop_quiet (self : ProcessAccountSet) (a : account) (s : session)
  (rs : list string) (acc : gmap string value) (lg lg' : list log_record) :
  (region_loop (quiet self) a s rs acc lg).2
  = (region_loop self a s rs acc lg').2.
Proof.
  revert acc lg lg'. induction rs as [|r0 rs IH]; intros acc lg lg'; [done|].
  simpl. destruct (process_account_region self a r0 s) as [v|e]; [apply IH|].
  destruct (is_Exception e) eqn:He; simpl; [apply IH|].
  by rewrite He.
Qed.

(** X13.  The result of a task does not tell a region where the operation
    raised from a region where it returned [False]: replacing every caught
    failure of the operation by a returned [False] changes neither the map
    the task returns nor the exception it ends with. *)
Theorem process_account_conflates (self : ProcessAccountSet) (a : account)
  (s : session) :
  (process_account (quiet self) a s).2 = (process_account self a s).2
  /\ fut_outcome (submit (quiet self) a s) = fut_outcome (submit self a s).
Proof.
  split; unfold submit, process_account; simpl; apply region_loop_quiet.
Qed.

End ProcessAccount.

(** ** The keys of the result *)

Lemma collect_keys (l : list future) (acc : gmap string (gmap string value))
  (k : string) :
  is_Some (collect l acc !! k) -> is_Some (acc !! k) \/ k ∈ ids l.
Proof.
  revert acc. induction l as [|f l IH]; intros acc; [by left|].
  change (collect (f :: l) acc)
    with (collect l (match fut_outcome f with
                     | Return rr => <[Id (fut_account f) := rr]> acc
                     | Raise _ => acc
                     end)).
  intros Hk. apply IH in Hk as [Hk|Hk].
  - destruct (fut_outcome f) as [rr|e]; [|by left].
    destruct (decide (Id (fut_account f) = k)) as [<-|Hne].
    + right. unfold ids. rewrite fmap_cons. left.
    + left. by rewrite lookup_insert_ne in Hk.
  - right. unfold ids. rewrite fmap_cons. by right.
Qed.

Lemma collect_size (l : list future) (acc : gmap string (gmap string value)) :
  size (collect l acc) <= size acc + length l.
Proof.
  revert acc. induction l as [|f l IH]; intros acc; [simpl; lia|].
  change (collect (f :: l) acc)
    with (collect l (match fut_outcome f with
                     | Return rr => <[Id (fut_account f) := rr]> acc
                     | Raise _ => acc
                     end)).
  etrans; [apply IH|]. simpl.
  destruct (fut_outcome f) as [rr|e]; [|lia].
  rewrite map_size_insert. destruct (acc !! Id (fut_account f)); simpl; lia.
Qed.

(** Every entry of the result comes from a future that returned it. *)
Lemma collect_values (l : list future)
  (acc : gmap string (gmap string value)) (k : string)
  (rr : gmap string value) :
  collect l acc !! k = Some rr ->
  acc !! k = Some rr
  \/ exists f, f ∈ l /\ Id (fut_account f) = k /\ fut_outcome f = Return rr.
Proof.
  revert acc. induction l as [|f l IH]; intros acc; [by left|].
  change (collect (f :: l) acc)
    with (collect l (match fut_outcome f with
                     | Return rr => <[Id (fut_account f) := rr]> acc
                     | Raise _ => acc
                     end)).
  intros Hk. apply IH in Hk as [Hk|(f' & Hf' & Hid & Hrr)].
  - destruct (fut_outcome f) as [rr0|e] eqn:Hf; [|by left].
    destruct (decide (Id (fut_account f) = k)) as [Heq|Hne].
    + rewrite Heq, lookup_insert_eq in Hk. injection Hk as ->.
      right. exists f. split; [left | done].
    + left. by rewrite lookup_insert_ne in Hk.
  - right. exists f'. split; [by right | done].
Qed.

(** The result does not depend on the order of futures with distinct ids. *)
Lemma collect_Permutation (l1 l2 : list future) :
  l1 ≡ₚ l2 -> NoDup (ids l1) ->
  forall acc, collect l1 acc = collect l2 acc.
Proof.
  induction 1 as [|f l1 l2 Hperm IH|f1 f2 l|l1 l2 l3 H12 IH12 H23 IH23];
    intros Hnd acc.
  - done.
  - unfold ids in Hnd. rewrite fmap_cons in Hnd.
    apply NoDup_cons in Hnd as [_ Hnd].
    change (collect (f :: l1) acc)
      with (collect l1 (match fut_outcome f with
                        | Return rr => <[Id (fut_account f) := rr]> acc
                        | Raise _ => acc
                        end)).
    by rewrite IH.
  - unfold ids in Hnd. rewrite !fmap_cons in Hnd.
    apply NoDup_cons in Hnd as [Hne _].
    assert (Id (fut_account f2) ≠ Id (fut_account f1)) as Hne'.
    { intros Heq. apply Hne. rewrite Heq. left. }
    unfold collect. simpl.
    destruct (fut_outcome f1) as [rr1|e1], (fut_outcome f2) as [rr2|e2];
      try done.
    by rewrite insert_insert_ne.
  - rewrite IH12 by done. apply IH23. unfold ids in *. by rewrite <- H12.
Qed.

Section ProcessAccountSet.

Context {session W : Type}.
Variable assumed_session :
  string -> string -> session -> string -> W -> outcome session * W.
Variable local_session : W -> outcome session * W.
Variable region_name : session -> string.
Variable ext : string -> string -> outcome string.

Abbreviation state := (Session.state (session := session) (W := W)).
Abbreviation account_session :=
  (Session.account_session assumed_session region_name ext).
Abbreviation get_org_session :=
  (Session.get_org_session assumed_session local_session).
Abbreviation PAS := (@Batch.ProcessAccountSet session).
Abbreviation submit_all :=
  (Batch.submit_all assumed_session region_name ext).
Abbreviation process_account_set :=
  (Batch.process_account_set assumed_session local_session region_name ext).

(** The futures of the first loop are those of some of the resources, in
    the order of the resources. *)
Lemma submit_all_accounts (tid : nat) (self : PAS)
  (account_config : gmap string string) (org : session) (l : list account)
  (futs fs : list future) (st st' : state) :
  submit_all tid self account_config org l futs st = (Return fs, st') ->
  exists new, fs = futs ++ new /\ (fut_account <$> new) `sublist_of` l.
Proof.
  revert futs st. induction l as [|a l IH]; intros futs st Hrun.
  - injection Hrun as <- _. exists []. by rewrite app_nil_r.
  - simpl in Hrun.
    destruct (account_config !! "org-account-role") as [role|]; [|done].
    destruct (Session.account_session _ _ _ tid org a role st)
      as [[s|e] st1].
    + apply IH in Hrun as (new & -> & Hsub).
      exists (submit self a s :: new). split; [by rewrite <- app_assoc|].
      rewrite fmap_cons. by apply sublist_skip.
    + destruct (is_ClientError e); [|done].
      apply IH in Hrun as (new & -> & Hsub).
      exists new. split; [done|]. by apply sublist_cons.
Qed.

Lemma submit_all_ids (tid : nat) (self : PAS)
  (account_config : gmap string string) (org : session) (l : list account)
  (fs : list future) (st st' : state) :
  submit_all tid self account_config org l [] st = (Return fs, st') ->
  ids fs `sublist_of` (Id <$> l).
Proof.
  intros Hrun. apply submit_all_accounts in Hrun as (new & -> & Hsub).
  simpl. unfold ids.
  change (fun f => Id (fut_account f)) with (Id ∘ fut_account).
  rewrite list_fmap_compose. by apply fmap_sublist.
Qed.

(** Each future of the first loop is the task of one of the resources, run
    with the session resolved for it. *)
Lemma submit_all_futures (tid : nat) (self : PAS)
  (account_config : gmap string string) (org : session) (l : list account)
  (futs fs : list future) (st st' : state) :
  submit_all tid self account_config org l futs st = (Return fs, st') ->
  forall f, f ∈ fs ->
    f ∈ futs \/ exists a s, a ∈ l /\ f = submit self a s.
Proof.
  revert futs st. induction l as [|a l IH]; intros futs st Hrun f Hf.
  - injection Hrun as <- _. by left.
  - simpl in Hrun.
    destruct (account_config !! "org-account-role") as [role|]; [|done].
    destruct (Session.account_session _ _ _ tid org a role st)
      as [[s|e] st1].
    + destruct (IH _ _ Hrun f Hf) as [Hin|(a' & s' & Ha' & ->)].
      * apply elem_of_app in Hin as [Hin|Hin]; [by left|].
        apply list_elem_of_singleton in Hin as ->.
        right. exists a, s. split; [left | done].
      * right. exists a', s'. split; [by right | done].
    + destruct (is_ClientError e); [|done].
      destruct (IH _ _ Hrun f Hf) as [Hin|(a' & s' & Ha' & ->)];
        [by left|].
      right. exists a', s'. split; [by right | done].
Qed.

Section completion.

Variable as_completed : list future -> list future.
Hypothesis as_completed_perm : forall fs, as_completed fs ≡ₚ fs.

(** Every entry of the result is, under the id of one of the resources,
    the map the task for that resource returned. *)
Lemma process_account_set_entries (tid : nat) (self : PAS) (env : environ)
  (mgr : manager) (account_config : gmap string string)
  (resources : list account) (results : gmap string (gmap string value))
  (st st' : state) (k : string) (rr : gmap string value) :
  process_account_set as_completed tid self env mgr account_config resources
                      st
  = (Return results, st') ->
  results !! k = Some rr ->
  exists a s, a ∈ resources /\ Id a = k
              /\ (process_account self a s).2 = Return rr.
Proof.
  unfold Batch.process_account_set, bind. intros Hrun Hk.
  destruct (Session.get_org_session _ _ env mgr st) as [[org|e] st0];
    [|done].
  destruct (Batch.submit_all _ _ _ tid self account_config org resources []
              st0) as [[futs|e] st1] eqn:Hsub; [|done].
  rewrite gather_collect in Hrun. injection Hrun as <- _.
  apply collect_values in Hk as [Hk|(f & Hf & Hid & Hrr)];
    [by rewrite lookup_empty in Hk|].
  rewrite (as_completed_perm futs) in Hf.
  destruct (submit_all_futures _ _ _ _ _ _ _ _ _ Hsub f Hf)
    as [Hin|(a & s & Ha & ->)]; [by apply elem_of_nil in Hin|].
  by exists a, s.
Qed.

(** X14.  Every entry of the result of [process_account_set] stands under
    the id of one of the resources it was given and is the map that the
    task for a resource with that id returned; the result has no more
    entries than there are resources. *)
Theorem process_account_set_keys (tid : nat) (self : PAS) (env : environ)
  (mgr : manager) (account_config : gmap string string)
  (resources : list account) (results : gmap string (gmap string value))
  (st st' : state) :
  process_account_set as_completed tid self env mgr account_config resources
                      st
  = (Return results, st') ->
  (forall k rr, results !! k = Some rr ->
     exists a s, a ∈ resources /\ Id a = k
                 /\ (process_account self a s).2 = Return rr)
  /\ size results <= length resources.
Proof.
  intros Hrun. split.
  - intros k rr.
    exact (process_account_set_entries _ _ _ _ _ _ _ _ _ k rr Hrun).
  - revert Hrun. unfold Batch.process_account_set, bind. intros Hrun.
    destruct (Session.get_org_session _ _ env mgr st) as [[org|e] st0];
      [|done].
    destruct (Batch.submit_all _ _ _ tid self account_config org resources
                [] st0) as [[futs|e] st1] eqn:Hsub; [|done].
    rewrite gather_collect in Hrun. injection Hrun as <- _.
    pose proof (submit_all_ids _ _ _ _ _ _ _ _ Hsub) as Hids.
    etrans; [apply collect_size|]. rewrite map_size_empty. simpl.
    rewrite (as_completed_perm futs).
    apply sublist_length in Hids. unfold ids in Hids.
    rewrite !length_fmap in Hids. exact Hids.
Qed.

(** X16.  A failure of [account_session] that is not a [ClientError] is
    not handled: it ends the whole call on the spot.  The accounts after
    the failing one are not tried, and the results of the tasks already
    submitted are not returned. *)
Theorem process_account_set_aborts (tid : nat) (self : PAS) (env : environ)
  (mgr : manager) (account_config : gmap string string) (org : session)
  (role : string) (pre post : list account) (a : account) (e : exn)
  (futs1 : list future) (st st0 st1 st2 : state) :
  get_org_session env mgr st = (Return org, st0) ->
  account_config !! "org-account-role" = Some role ->
  submit_all tid self account_config org pre [] st0 = (Return futs1, st1) ->
  account_session tid org a role st1 = (Raise e, st2) ->
  is_ClientError e = false ->
  process_account_set as_completed tid self env mgr account_config
                      (pre ++ a :: post) st
  = (Raise e, st2).
Proof.
  intros Horg Hrole Hpre Ha He. unfold Batch.process_account_set, bind.
  rewrite Horg.
  rewrite (submit_all_app _ _ _ tid self account_config org role Hrole).
  rewrite Hpre.
  by rewrite (submit_all_aborts _ _ _ tid self account_config org role Hrole
                _ _ _ _ _ _ Ha He).
Qed.

Variable as_completed' : list future -> list future.
Hypothesis as_completed_perm' : forall fs, as_completed' fs ≡ₚ fs.

(** X15.  When the resources have distinct ids, the order in which the
    tasks complete does not show in the result: two runs that differ only
    in that order end with the same result, the same calls to the provider
    and the same caches, and log the same entries, possibly in another
    order. *)
Theorem process_account_set_order (tid : nat) (self : PAS) (env : environ)
  (mgr : manager) (account_config : gmap string string)
  (resources : list account) (st : state) :
  NoDup (Id <$> resources) ->
  let run := process_account_set as_completed tid self env mgr
               account_config resources st in
  let run' := process_account_set as_completed' tid self env mgr
                account_config resources st in
  run.1 = run'.1
  /\ calls run.2 = calls run'.2
  /\ ACCOUNT_SESSION run.2 = ACCOUNT_SESSION run'.2
  /\ log run.2 ≡ₚ log run'.2.
Proof.
  intros Hnd run run'. subst run run'.
  unfold Batch.process_account_set, bind.
  destruct (Session.get_org_session _ _ env mgr st) as [[org|e] st0];
    [|done].
  destruct (Batch.submit_all _ _ _ tid self account_config org resources []
              st0) as [[futs|e] st1] eqn:Hsub; [|done].
  rewrite !gather_collect. simpl.
  pose proof (submit_all_ids _ _ _ _ _ _ _ _ Hsub) as Hids.
  assert (NoDup (ids futs)) as Hfuts by (by eapply sublist_NoDup).
  assert (as_completed futs ≡ₚ as_completed' futs) as Hperm.
  { by rewrite as_completed_perm, as_completed_perm'. }
  split; [|split; [done|split; [done|]]].
  - f_equal. apply collect_Permutation; [done|].
    unfold ids. by rewrite (as_completed_perm futs).
  - apply Permutation_app; [done|]. unfold account_errors. by rewrite Hperm.
Qed.

End completion.

End ProcessAccountSet.

(** ** Samples *)

Lemma process_account_log_witness :
  (process_account sample_filter T2 1).1
  = [LogProcessing "cfn-stack" "dev" "222222222222";
     LogRegionError "cfn-stack" "dev" "222222222222" "east"
                    (OtherException "EndpointConnectionError")].
Proof.
  rewrite (process_account_log sample_filter T2 1); [reflexivity|].
  intros r _. by apply sample_caught.
Defined.

Lemma process_account_set_keys_witness :
  exists results,
    (sample_process_account_set [T1; T2; T3] initial_state).1 = Return results
    /\ (forall k rr, results !! k = Some rr ->
          exists a s, a ∈ [T1; T2; T3] /\ Id a = k
                      /\ (process_account sample_filter a s).2 = Return rr)
    /\ size results <= length [T1; T2; T3].
Proof.
  exists {["222222222222" := {["east" := VBool false; "west" := VBool true]}]}.
  assert (sample_process_account_set [T1; T2; T3] initial_state
          = (Return {["222222222222" :=
                        {["east" := VBool false; "west" := VBool true]}]},
             (sample_process_account_set [T1; T2; T3] initial_state).2))
    as Hrun by (vm_compute; reflexivity).
  split; [exact (f_equal fst Hrun)|].
  exact (process_account_set_keys sample_assumed_session sample_local_session
           (fun _ => "us-east-1") sample_ext reverse reverse_Permutation 0
           sample_filter sample_env sample_mgr
           (parse_query sample_env sample_mgr) [T1; T2; T3] _ initial_state
           _ Hrun).
Defined.

Lemma process_account_set_order_witness :
  let run :=
    process_account_set sample_assumed_session sample_local_session
      (fun _ => "us-east-1") sample_ext reverse 0 sample_filter sample_env
      sample_mgr (parse_query sample_env sample_mgr) [T1; T2; T3]
      initial_state in
  let run' :=
    process_account_set sample_assumed_session sample_local_session
      (fun _ => "us-east-1") sample_ext (fun fs => fs) 0 sample_filter
      sample_env sample_mgr (parse_query sample_env sample_mgr) [T1; T2; T3]
      initial_state in
  run.1 = run'.1
  /\ calls run.2 = calls run'.2
  /\ ACCOUNT_SESSION run.2 = ACCOUNT_SESSION run'.2
  /\ log run.2 ≡ₚ log run'.2.
Proof.
  apply (process_account_set_order sample_assumed_session
           sample_local_session (fun _ => "us-east-1") sample_ext
           reverse reverse_Permutation (fun fs => fs)
           (fun fs => Permutation_refl fs) 0 sample_filter sample_env
           sample_mgr (parse_query sample_env sample_mgr) [T1; T2; T3]
           initial_state).
  apply (bool_decide_unpack _). vm_compute. exact I.
Defined.

(** A provider that cannot be reached for the account 333333333333. *)
Definition flaky_assumed_session (role_arn session_name : string)
  (parent : nat) (region : string) (w : nat) : outcome nat * nat :=
  if String.prefix "arn:aws:iam::333333333333:" role_arn
  then (Raise (OtherException "ConnectTimeoutError"), w)
  else sample_assumed_session role_arn session_name parent region w.

Lemma process_account_set_aborts_witness :
  (process_account_set flaky_assumed_session sample_local_session
     (fun _ => "us-east-1") sample_ext reverse 0 sample_filter sample_env
     sample_mgr (parse_query sample_env sample_mgr) ([T2] ++ T3 :: [T1])
     initial_state).1
  = Raise (OtherException "ConnectTimeoutError").
Proof.
  refine (f_equal fst
            (process_account_set_aborts flaky_assumed_session
               sample_local_session (fun _ => "us-east-1") sample_ext reverse
               0 sample_filter sample_env sample_mgr
               (parse_query sample_env sample_mgr) 0
               "OrganizationAccountAccessRole" [T2] [T1] T3
               (OtherException "ConnectTimeoutError") _ initial_state st_org
               _ _ eq_refl eq_refl _ _ eq_refl)).
  - vm_compute. reflexivity.
  - vm_compute. reflexivity.
Defined.

End BatchFacts.

(** * Organization policies: [OrgPolicy] *)

Module Policy.
Import Py.

(** An entry of [self.data["query"]]: a dict, or anything else. *)
Inductive query_item :=
| QDict (d : gmap string value)
| QOther (v : value).

(** The configuration of the resource manager: [self.data.get("query")]. *)
Record OrgPolicy := { data_query : option (list query_item) }.

(** One turn of the loop of [parse_query]. *)
Definition parse_item (params : gmap string value) (q : query_item)
  : gmap string value :=
  match q with
  | QDict d =>
      match d !! "filter" with
      | Some v => <["Filter" := v]> params
      | None => params
      end
  | QOther _ => params
  end.

(** [OrgPolicy.parse_query]; its [query] argument is not used. *)
Definition parse_query (self : OrgPolicy) : gmap string value :=
  let params := foldl parse_item ∅ (default [] (data_query self)) in
  if (size params =? 0)%nat
  then <["Filter" := VStr "SERVICE_CONTROL_POLICY"]> params
  else params.

(** ** Auxiliary notions *)

(** The [filter] of a query entry, if it is a dict and has one. *)
Definition item_filter (q : query_item) : option value :=
  match q with
  | QDict d => d !! "filter"
  | QOther _ => None
  end.

Lemma foldl_parse_item (qs : list query_item) (params : gmap string value) :
  foldl parse_item params qs
  = match last (omap item_filter qs) with
    | Some v => <["Filter" := v]> params
    | None => params
    end.
Proof.
  revert params. induction qs as [|q qs IH]; intros params; [done|].
  change (foldl parse_item params (q :: qs))
    with (foldl parse_item (parse_item params q) qs).
  rewrite IH.
  change (omap item_filter (q :: qs))
    with (match item_filter q with
          | Some v => v :: omap item_filter qs
          | None => omap item_filter qs
          end).
  assert (parse_item params q
          = match item_filter q with
            | Some v => <["Filter" := v]> params
            | None => params
            end) as -> by (by destruct q).
  destruct (item_filter q) as [v0|]; [|done].
  destruct (omap item_filter qs) as [|v1 vs]; [done|].
  change (last (v0 :: v1 :: vs)) with (last (v1 :: vs)).
  destruct (last (v1 :: vs)) as [v|] eqn:Hlast.
  - by rewrite insert_insert_eq.
  - by apply last_None in Hlast.
Qed.

Lemma parse_query_singleton (self : OrgPolicy) :
  parse_query self
  = {["Filter" :=
        default (VStr "SERVICE_CONTROL_POLICY")
                (last (omap item_filter (default [] (data_query self))))]}.
Proof.
  unfold parse_query. cbv zeta. rewrite foldl_parse_item.
  destruct (last _) as [v|]; simpl.
  - rewrite insert_empty, map_size_singleton. done.
  - rewrite map_size_empty. simpl. by rewrite insert_empty.
Qed.

(** X17.  [OrgPolicy.parse_query] returns a dict with the single key
    [Filter].  Its value is the [filter] of the last entry of the query
    that is a dict with that key, whatever that value is (an empty string
    or [None] is kept), and [SERVICE_CONTROL_POLICY] when no entry has
    one. *)
Theorem parse_query_filter (self : OrgPolicy) :
  parse_query self
  = {["Filter" :=
        default (VStr "SERVICE_CONTROL_POLICY")
                (last (omap item_filter (default [] (data_query self))))]}.
Proof. apply parse_query_singleton. Qed.

End Policy.

(** * The [cfn-stack] filter: [StackFilter] *)

Module Stack.
Import Py Session.

(** The configuration of the filter: [self.type] and the entries of
    [self.data] that the code reads. *)
Record StackFilter := {
  type : string;
  data_stack_names : option (list string);
  data_present : option value;
  data_status : option (list string);
  data_regions : option (list string)
}.

(** A stack as [describe_stacks] reports it: a dict. *)
Abbreviation stack := (gmap string string).

(** [any(d.values())] *)
Definition any_values (d : gmap string value) : bool :=
  existsb truthy (map_to_list d).*2.

(** The loop of [StackFilter.process] over the resources, from the
    results of [process_account_set]: each resource it keeps, with the value
    it stores under the annotation key of the resource. *)
Definition select (results : gmap string (gmap string value))
  (resources : list account) : list (account * gmap string value) :=
  omap (fun r =>
          match results !! Id r with
          | None => None
          | Some region_results =>
              if any_values region_results
              then Some (r, filter (fun kv => truthy kv.2 = true)
                                   region_results)
              else None
          end) resources.

Section StackFilter.

Context {session client W : Type}.

(** [session.client("cloudformation", region_name=region)] *)
Variable cloudformation : session -> string -> outcome client.
(** [client.describe_stacks(StackName=s)]: the ["Stacks"] entry of the
    response, when it has one. *)
Variable describe_stacks : client -> string -> outcome (option (list stack)).

(** The body of the [try] for the stack name [s]: the list it binds to
    [stacks] and the value of [found] after it. *)
Definition try_describe (cl : client) (states : list string) (found : bool)
  (s : string) : outcome (list stack * bool) :=
  match describe_stacks cl s with
  | Raise e => Raise e
  | Return response =>
      let stacks := default [] response in
      match states with
      | [] => Return (stacks, found)
      | _ :: _ =>
          match stacks with
          | [] => Raise IndexError
          | first :: _ =>
              match first !! "StackStatus" with
              | None => Raise (KeyError "StackStatus")
              | Some status =>
                  Return (stacks,
                          if bool_decide (status ∈ states) then found
                          else false)
              end
          end
      end
  end.

(** One turn of the loop over [stack_names]: the [try] with its [except
    ClientError] and [else] clauses. *)
Definition stack_step (cl : client) (states : list string) (found : bool)
  (s : string) : outcome bool :=
  match try_describe cl states found s with
  | Raise e => if is_ClientError e then Return false else Raise e
  | Return (stacks, found) =>
      Return (match stacks with [] => false | _ :: _ => found end)
  end.

Fixpoint stack_loop (cl : client) (states : list string)
  (stack_names : list string) (found : bool) : outcome bool :=
  match stack_names with
  | [] => Return found
  | s :: rest =>
      match stack_step cl states found s with
      | Raise e => Raise e
      | Return found => stack_loop cl states rest found
      end
  end.

(** [StackFilter.process_account_region(account, region, session)] *)
Definition process_account_region (self : StackFilter) (a : account)
  (region : string) (s : session) : outcome value :=
  match cloudformation s region with
  | Raise e => Raise e
  | Return cl =>
      let present := default (VBool false) (data_present self) in
      let states := default [] (data_status self) in
      match stack_loop cl states (default [] (data_stack_names self)) true with
      | Raise e => Raise e
      | Return found =>
          if truthy present && found then Return (VBool true)
          else if negb (truthy present) && negb found then Return (VBool true)
          else Return (VBool false)
      end
  end.

(** The filter as a [ProcessAccountSet]. *)
Definition as_ProcessAccountSet (self : StackFilter)
  : Batch.ProcessAccountSet (session := session) :=
  {| Batch.type := type self;
     Batch.data_regions := data_regions self;
     Batch.process_account_region := process_account_region self |}.

Variable assumed_session :
  string -> string -> session -> string -> W -> outcome session * W.
Variable local_session : W -> outcome session * W.
Variable region_name : session -> string.
Variable ext : string -> string -> outcome string.
Variable as_completed : list Batch.future -> list Batch.future.
Hypothesis as_completed_perm : forall fs, as_completed fs ≡ₚ fs.

Abbreviation state := (Session.state (session := session) (W := W)).

(** [StackFilter.process(resources)], called in thread [tid]. *)
Definition process (tid : nat) (self : StackFilter) (env : environ)
  (mgr : manager) (account_config : gmap string string)
  (resources : list account)
  : M (session := session) (W := W) (list (account * gmap string value)) :=
  let* results :=
    Batch.process_account_set assumed_session local_session region_name ext
      as_completed tid (as_ProcessAccountSet self) env mgr account_config
      resources in
  ret (select results resources).

(** ** One stack name *)

(** Whether the stack name alone leaves [found] set. *)
Definition stack_found (cl : client) (states : list string) (s : string)
  : bool :=
  match stack_step cl states true s with
  | Return b => b
  | Raise _ => false
  end.

(** [found] is only ever cleared. *)
Lemma stack_step_found (cl : client) (states : list string) (found : bool)
  (s : string) :
  stack_step cl states found s
  = match stack_step cl states true s with
    | Return b => Return (found && b)
    | Raise e => Raise e
    end.
Proof.
  unfold stack_step, try_describe.
  destruct (describe_stacks cl s) as [response|e].
  - destruct states as [|st0 sts];
      destruct (default [] response) as [|first rest]; simpl;
      try (by rewrite ?andb_false_r, ?andb_true_r).
    destruct (first !! "StackStatus") as [status|]; simpl; [|done].
    destruct (bool_decide _); by rewrite ?andb_false_r, ?andb_true_r.
  - destruct (is_ClientError e); by rewrite ?andb_false_r.
Qed.

Lemma stack_step_true (cl : client) (states : list string) (s : string) :
  stack_step cl states true s = Return true
  <-> exists response first rest,
        describe_stacks cl s = Return response
        /\ default [] response = first :: rest
        /\ (states = []
            \/ exists status, first !! "StackStatus" = Some status
                              /\ status ∈ states).
Proof.
  unfold stack_step, try_describe. split.
  - destruct (describe_stacks cl s) as [response|e];
      [|by destruct (is_ClientError e)].
    intros Hrun. exists response.
    destruct (default [] response) as [|first rest].
    { by destruct states. }
    exists first, rest. split; [done|]. split; [done|].
    destruct states as [|st0 sts]; [by left|]. right.
    destruct (first !! "StackStatus") as [status|]; [|done].
    exists status. split; [done|].
    destruct (bool_decide_reflect (status ∈ st0 :: sts)); [done|].
    simpl in Hrun. done.
  - intros (response & first & rest & -> & -> & Hstates).
    destruct Hstates as [-> | (status & -> & Hin)]; [done|].
    destruct states as [|st0 sts]; [done|].
    by rewrite bool_decide_true.
Qed.

Lemma stack_step_raise (cl : client) (states : list string) (found : bool)
  (s : string) (e : exn) :
  stack_step cl states found s = Raise e
  <-> (describe_stacks cl s = Raise e /\ is_ClientError e = false)
      \/ (states <> []
          /\ exists response,
               describe_stacks cl s = Return response
               /\ ((default [] response = [] /\ e = IndexError)
                   \/ exists first rest,
                        default [] response = first :: rest
                        /\ first !! "StackStatus" = None
                        /\ e = KeyError "StackStatus")).
Proof.
  unfold stack_step, try_describe. split.
  - destruct (describe_stacks cl s) as [response|e0].
    + intros Hrun. right.
      destruct states as [|st0 sts].
      { by destruct (default [] response). }
      split; [done|]. exists response. split; [done|].
      destruct (default [] response) as [|first rest].
      { simpl in Hrun. injection Hrun as <-. by left. }
      right. exists first, rest. split; [done|].
      destruct (first !! "StackStatus") as [status|]; [done|].
      simpl in Hrun. by injection Hrun as <-.
    + destruct (is_ClientError e0) eqn:He0; [done|].
      intros [= ->]. by left.
  - intros [[-> ->] | (Hstates & response & -> & Hcase)]; [done|].
    destruct states as [|st0 sts]; [done|].
    destruct Hcase as [[-> ->] | (first & rest & -> & -> & ->)]; done.
Qed.

(** X19.  What one stack name does to [found].  The name leaves [found]
    set exactly when [describe_stacks] answers with at least one stack and,
    if a status list is configured, the status of the first stack of the
    answer is in the list; the other stacks of the answer are not looked
    at.  The turn raises exactly when [describe_stacks] raises something
    other than [ClientError], or when, with a status list configured, the
    answer has no stack ([IndexError]) or its first stack has no
    [StackStatus] ([KeyError]).  In every other case, a [ClientError]
    among them, [found] is cleared. *)
Theorem stack_step_outcome (cl : client) (states : list string)
  (s : string) :
  (stack_step cl states true s = Return true
   <-> exists response first rest,
         describe_stacks cl s = Return response
         /\ default [] response = first :: rest
         /\ (states = []
             \/ exists status, first !! "StackStatus" = Some status
                               /\ status ∈ states))
  /\ (forall (found : bool) (e : exn),
        stack_step cl states found s = Raise e
        <-> (describe_stacks cl s = Raise e /\ is_ClientError e = false)
            \/ (states <> []
                /\ exists response,
                     describe_stacks cl s = Return response
                     /\ ((default [] response = [] /\ e = IndexError)
                         \/ exists first rest,
                              default [] response = first :: rest
                              /\ first !! "StackStatus" = None
                              /\ e = KeyError "StackStatus")))
  /\ (forall b, stack_step cl states false s = Return b -> b = false).
Proof.
  split; [apply stack_step_true|]. split.
  - intros found e. apply stack_step_raise.
  - intros b. rewrite stack_step_found.
    destruct (stack_step cl states true s); [|done]. by intros [= <-].
Qed.

(** ** The loop over the stack names *)

Lemma stack_loop_returns (cl : client) (states : list string)
  (names : list string) (found : bool) :
  (forall n, n ∈ names -> exists b, stack_step cl states true n = Return b) ->
  stack_loop cl states names found
  = Return (found && forallb (stack_found cl states) names).
Proof.
  revert found. induction names as [|n names IH]; intros found Hall.
  - simpl. by rewrite andb_true_r.
  - destruct (Hall n) as [b Hb]; [left|].
    assert (stack_found cl states n = b) as Hn
      by (unfold stack_found; by rewrite Hb).
    simpl. rewrite stack_step_found, Hb, Hn.
    rewrite IH by (intros n' Hn'; apply Hall; by right).
    by rewrite andb_assoc.
Qed.

Lemma stack_loop_raises (cl : client) (states : list string)
  (pre post : list string) (n : string) (found : bool) (e : exn) :
  (forall n', n' ∈ pre -> exists b, stack_step cl states true n' = Return b) ->
  stack_step cl states true n = Raise e ->
  stack_loop cl states (pre ++ n :: post) found = Raise e.
Proof.
  revert found. induction pre as [|n0 pre IH]; intros found Hall Hn; simpl.
  - by rewrite stack_step_found, Hn.
  - rewrite stack_step_found. destruct (Hall n0) as [b ->]; [left|].
    apply IH; [|done]. intros n' Hn'. apply Hall. by right.
Qed.

Lemma process_account_region_bool (self : StackFilter) (a : account)
  (region : string) (s : session) (v : value) :
  process_account_region self a region s = Return v -> exists b, v = VBool b.
Proof.
  unfold process_account_region.
  destruct (cloudformation s region) as [cl|e]; [|done].
  destruct (stack_loop cl _ _ true) as [found|e]; [|done]. cbv zeta.
  destruct (truthy _ && found); [intros [= <-]; by eexists|].
  destruct (negb _ && negb found); intros [= <-]; by eexists.
Qed.

(** X20.  When no stack name makes the loop raise, the operation returns
    [True] exactly when [present] agrees with: every configured stack name
    is found.  So with [present] false or missing it returns [True] as soon
    as one of the names is not found, and with no stack names it returns
    what [present] says. *)
Theorem process_account_region_spec (self : StackFilter) (a : account)
  (region : string) (s : session) (cl : client) :
  cloudformation s region = Return cl ->
  (forall n, n ∈ default [] (data_stack_names self) ->
             exists b,
               stack_step cl (default [] (data_status self)) true n
               = Return b) ->
  process_account_region self a region s
  = Return (VBool (Bool.eqb
                     (truthy (default (VBool false) (data_present self)))
                     (forallb (stack_found cl (default [] (data_status self)))
                              (default [] (data_stack_names self))))).
Proof.
  intros Hcl Hall. unfold process_account_region. rewrite Hcl. cbv zeta.
  rewrite (stack_loop_returns _ _ _ true Hall). simpl.
  by destruct (truthy _), (forallb _ _).
Qed.

(** X21.  With a status list configured, a stack name for which
    [describe_stacks] answers without any stack does not count as not
    found: the operation raises [IndexError], provided the names before it
    raise nothing.  A task that returns therefore records [False] for the
    region, also when [present] is false. *)
Theorem process_account_region_empty_answer (self : StackFilter)
  (a : account) (region : string) (s : session) (cl : client)
  (st0 : string) (sts pre post : list string) (n : string)
  (response : option (list stack)) :
  cloudformation s region = Return cl ->
  data_status self = Some (st0 :: sts) ->
  data_stack_names self = Some (pre ++ n :: post) ->
  (forall n', n' ∈ pre ->
              exists b, stack_step cl (st0 :: sts) true n' = Return b) ->
  describe_stacks cl n = Return response ->
  default [] response = [] ->
  process_account_region self a region s = Raise IndexError
  /\ forall rr,
       (Batch.process_account (as_ProcessAccountSet self) a s).2 = Return rr ->
       region ∈ Batch.resolve_regions (as_ProcessAccountSet self) a s ->
       rr !! region = Some (VBool false).
Proof.
  intros Hcl Hstatus Hnames Hpre Hn Hempty.
  assert (process_account_region self a region s = Raise IndexError) as Hraise.
  { unfold process_account_region. rewrite Hcl, Hstatus, Hnames. simpl.
    rewrite (stack_loop_raises cl (st0 :: sts) pre post n true IndexError);
      [done | done |].
    apply stack_step_raise. right. split; [done|].
    exists response. split; [done|]. by left. }
  split; [done|]. intros rr Hrun Hregion.
  rewrite (BatchFacts.process_account_returns _ _ _ _ _ Hrun Hregion).
  simpl. by rewrite Hraise.
Qed.

(** ** The resources the filter keeps *)

Lemma any_values_filter (rr : gmap string value) :
  any_values rr = true
  <-> filter (fun kv : string * value => truthy kv.2 = true) rr ≠ ∅.
Proof.
  unfold any_values. rewrite existsb_exists. split.
  - intros (v & Hin & Hv). apply list_elem_of_In in Hin.
    apply list_elem_of_fmap in Hin as ([k v'] & -> & Hin).
    apply elem_of_map_to_list in Hin. simpl in Hv.
    intros Hempty.
    assert (filter (fun kv : string * value => truthy kv.2 = true) rr !! k
            = Some v') as Hk by (by apply map_lookup_filter_Some).
    by rewrite Hempty, lookup_empty in Hk.
  - intros Hne. apply map_choose in Hne as (k & v & Hk).
    apply map_lookup_filter_Some in Hk as [Hk Hv]. simpl in Hv.
    exists v. split; [|done]. apply list_elem_of_In.
    apply list_elem_of_fmap. exists (k, v). split; [done|].
    by apply elem_of_map_to_list.
Qed.

Lemma elem_of_select (results : gmap string (gmap string value))
  (resources : list account) (r : account) (ann : gmap string value) :
  (r, ann) ∈ select results resources
  <-> r ∈ resources
      /\ exists rr, results !! Id r = Some rr
                    /\ ann = filter (fun kv => truthy kv.2 = true) rr
                    /\ ann ≠ ∅.
Proof.
  unfold select. rewrite list_elem_of_omap. split.
  - intros (r0 & Hr0 & Hkeep).
    destruct (results !! Id r0) as [rr|] eqn:Hrr; [|done].
    destruct (any_values rr) eqn:Hany; [|done].
    injection Hkeep as -> <-. split; [done|]. exists rr.
    split; [done|]. split; [done|]. by apply any_values_filter.
  - intros (Hr & rr & Hrr & -> & Hne). exists r. split; [done|].
    rewrite Hrr. apply any_values_filter in Hne. by rewrite Hne.
Qed.

Lemma select_sublist (results : gmap string (gmap string value))
  (resources : list account) :
  (select results resources).*1 `sublist_of` resources.
Proof.
  unfold select. induction resources as [|r resources IH]; [done|].
  simpl. destruct (results !! Id r) as [rr|]; [|by apply sublist_cons].
  destruct (any_values rr); [|by apply sublist_cons].
  rewrite fmap_cons. by apply sublist_skip.
Qed.

(** X22.  From the results of [process_account_set], [StackFilter.process]
    keeps the resources, in their order, whose id has an entry with at
    least one truthy value, and stores as annotation exactly the truthy
    part of that entry: a resource is never kept with an empty
    annotation, and a resource without an entry, or with only falsy values,
    is never kept. *)
Theorem select_spec (results : gmap string (gmap string value))
  (resources : list account) :
  (select results resources).*1 `sublist_of` resources
  /\ forall r ann,
       (r, ann) ∈ select results resources
       <-> r ∈ resources
           /\ exists rr, results !! Id r = Some rr
                         /\ ann = filter (fun kv => truthy kv.2 = true) rr
                         /\ ann ≠ ∅.
Proof.
  split; [apply select_sublist|]. intros r ann. apply elem_of_select.
Qed.

(** X23.  Every resource that [StackFilter.process] returns is one of the
    resources it was given, and its annotation is a non-empty map from
    configured regions (from [us-east-1] alone when none is configured) to
    [True]: the regions in which the operation returned [True] for an
    account with that id. *)
Theorem stack_process_annotations (tid : nat) (self : StackFilter)
  (env : environ) (mgr : manager) (account_config : gmap string string)
  (resources : list account) (kept : list (account * gmap string value))
  (st st' : state) :
  process tid self env mgr account_config resources st = (Return kept, st') ->
  kept.*1 `sublist_of` resources
  /\ forall r ann, (r, ann) ∈ kept ->
       r ∈ resources
       /\ ann ≠ ∅
       /\ forall region v, ann !! region = Some v ->
            v = VBool true
            /\ region ∈ default ["us-east-1"] (data_regions self)
            /\ exists a s, a ∈ resources /\ Id a = Id r
                 /\ process_account_region self a region s
                    = Return (VBool true).
Proof.
  unfold process, bind, ret. intros Hrun.
  destruct (Batch.process_account_set _ _ _ _ _ tid _ env mgr account_config
              resources st) as [[results|e] st1] eqn:Hset; [|done].
  injection Hrun as <- _. split; [apply select_sublist|].
  intros r ann Hin.
  apply elem_of_select in Hin as (Hr & rr & Hrr & -> & Hne).
  split; [done|]. split; [done|]. intros region v Hv.
  apply map_lookup_filter_Some in Hv as [Hv Htrue]. simpl in Htrue.
  destruct (BatchFacts.process_account_set_entries _ _ _ _ _
              as_completed_perm _ _ _ _ _ _ _ _ _ _ _ Hset Hrr)
    as (a & s & Ha & Hid & Htask).
  destruct (BatchFacts.process_account_values _ _ _ _ _ _ Htask Hv)
    as [Hregion [Hop | ->]]; [|done].
  simpl in Hop.
  destruct (process_account_region_bool _ _ _ _ _ Hop) as [b ->].
  simpl in Htrue. subst b. split; [done|]. split; [done|].
  by exists a, s.
Qed.

End StackFilter.

(** ** Samples *)

(** A sample CloudFormation.  A client is the session and the region it was
    made for.  The stack [app] is complete in every region but [west],
    where it was rolled back, and is rolled back everywhere for the session
    2; there is no stack [gone]; for [blank] the answer holds no stack. *)
Definition sample_cloudformation (s : nat) (region : string)
  : outcome (nat * string) :=
  Return (s, region).

Definition sample_describe_stacks (cl : nat * string) (name : string)
  : outcome (option (list stack)) :=
  if String.eqb name "gone" then Raise (ClientError "ValidationError")
  else if String.eqb name "blank" then Return (Some [])
  else if String.eqb cl.2 "west" || Nat.eqb cl.1 2
       then Return (Some [{["StackStatus" := "ROLLBACK_COMPLETE"]}])
       else Return (Some [{["StackStatus" := "CREATE_COMPLETE"]}]).

Definition sample_stack_filter (names : list string) (present : option value)
  : StackFilter :=
  {| type := "cfn-stack";
     data_stack_names := Some names;
     data_present := present;
     data_status := Some ["CREATE_COMPLETE"];
     data_regions := Some ["east"; "west"] |}.

Lemma process_account_region_spec_witness :
  process_account_region sample_cloudformation sample_describe_stacks
    (sample_stack_filter ["app"; "gone"] None) Batch.T2 "east" 1
  = Return (VBool true)
  /\ process_account_region sample_cloudformation sample_describe_stacks
       (sample_stack_filter ["app"; "gone"] (Some (VBool true))) Batch.T2
       "east" 1
     = Return (VBool false).
Proof.
  split.
  - rewrite (process_account_region_spec sample_cloudformation
               sample_describe_stacks
               (sample_stack_filter ["app"; "gone"] None) Batch.T2 "east" 1
               (1, "east") eq_refl); [reflexivity|].
    intros n Hn. simpl in Hn.
    apply elem_of_cons in Hn as [->|Hn]; [by eexists|].
    apply list_elem_of_singleton in Hn as ->. by eexists.
  - rewrite (process_account_region_spec sample_cloudformation
               sample_describe_stacks
               (sample_stack_filter ["app"; "gone"] (Some (VBool true)))
               Batch.T2 "east" 1 (1, "east") eq_refl); [reflexivity|].
    intros n Hn. simpl in Hn.
    apply elem_of_cons in Hn as [->|Hn]; [by eexists|].
    apply list_elem_of_singleton in Hn as ->. by eexists.
Defined.

Lemma process_account_region_empty_answer_witness :
  process_account_region sample_cloudformation sample_describe_stacks
    (sample_stack_filter ["app"; "blank"; "gone"] None) Batch.T2 "east" 1
  = Raise IndexError
  /\ forall rr,
       (Batch.process_account
          (as_ProcessAccountSet sample_cloudformation sample_describe_stacks
             (sample_stack_filter ["app"; "blank"; "gone"] None))
          Batch.T2 1).2 = Return rr ->
       "east" ∈ Batch.resolve_regions
                  (as_ProcessAccountSet sample_cloudformation
                     sample_describe_stacks
                     (sample_stack_filter ["app"; "blank"; "gone"] None))
                  Batch.T2 1 ->
       rr !! "east" = Some (VBool false).
Proof.
  apply (process_account_region_empty_answer sample_cloudformation
           sample_describe_stacks
           (sample_stack_filter ["app"; "blank"; "gone"] None) Batch.T2
           "east" 1 (1, "east") "CREATE_COMPLETE" [] ["app"] ["gone"] "blank"
           (Some [])); try reflexivity.
  intros n Hn. apply list_elem_of_singleton in Hn as ->. by eexists.
Defined.

(** The sample run of the filter: the role of [T1] cannot be assumed, [T2]
    gets the session 1 and [T3] the session 2. *)
Definition sample_process (resources : list account) :=
  process sample_cloudformation sample_describe_stacks
    sample_assumed_session sample_local_session (fun _ => "us-east-1")
    sample_ext reverse 0 (sample_stack_filter ["app"] (Some (VBool true)))
    Batch.sample_env Batch.sample_mgr
    (parse_query Batch.sample_env Batch.sample_mgr) resources.

Lemma stack_process_annotations_witness :
  (sample_process [Batch.T1; Batch.T2; Batch.T3] initial_state).1
  = Return [(Batch.T2, {["east" := VBool true]})]
  /\ [(Batch.T2, ({["east" := VBool true]} : gmap string value))].*1
     `sublist_of` [Batch.T1; Batch.T2; Batch.T3]
  /\ forall r ann,
       (r, ann) ∈ [(Batch.T2, ({["east" := VBool true]} : gmap string value))] ->
       r ∈ [Batch.T1; Batch.T2; Batch.T3]
       /\ ann ≠ ∅
       /\ forall region v, ann !! region = Some v ->
            v = VBool true
            /\ region ∈ ["east"; "west"]
            /\ exists a s, a ∈ [Batch.T1; Batch.T2; Batch.T3] /\ Id a = Id r
                 /\ process_account_region sample_cloudformation
                      sample_describe_stacks
                      (sample_stack_filter ["app"] (Some (VBool true)))
                      a region s
                    = Return (VBool true).
Proof.
  assert (sample_process [Batch.T1; Batch.T2; Batch.T3] initial_state
          = (Return [(Batch.T2, {["east" := VBool true]})],
             (sample_process [Batch.T1; Batch.T2; Batch.T3]
                             initial_state).2))
    as Hrun by (vm_compute; reflexivity).
  split; [exact (f_equal fst Hrun)|].
  exact (stack_process_annotations sample_cloudformation
           sample_describe_stacks sample_assumed_session sample_local_session
           (fun _ => "us-east-1") sample_ext reverse reverse_Permutation 0
           (sample_stack_filter ["app"] (Some (VBool true)))
           Batch.sample_env Batch.sample_mgr
           (parse_query Batch.sample_env Batch.sample_mgr)
           [Batch.T1; Batch.T2; Batch.T3] _ initial_state _ Hrun).
Defined.

End Stack.
